(** * video-control-vue: the content script of [App.vue]

    A shallow embedding of [src/contentScripts/views/App.vue]: the selection
    state ([videoElements], [videoSelectedIndex], the computed [video]), the
    key router ([shouldMapKey], [listenKeyEvent]), video discovery
    ([getAllValidVideoElements]), the mutation watcher ([listenVideoUpdate],
    [mayContainsVideoElement]) and the picker's outline bookkeeping
    ([selectVideo], [unselectVideo]).

    Host objects are records holding the properties the script reads; effects
    on the host (timers, event methods, handler calls, DOM edits) are returned
    as explicit logs or as a new store. *)

From Stdlib Require Import Ascii String.
From stdpp Require Import base option list strings gmap.

#[local] Set Warnings "-register-all".
#[local] Open Scope nat_scope.

(** ** Strings *)

(** [String.prototype.toLowerCase] on the ASCII range: [A]..[Z] are moved to
    [a]..[z], every other byte is kept.  Tag names and the words compared
    below are ASCII. *)
Definition ascii_toLowerCase (c : ascii) : ascii :=
  let n := nat_of_ascii c in
  if (65 <=? n) && (n <=? 90) then ascii_of_nat (n + 32) else c.

Fixpoint toLowerCase (s : string) : string :=
  match s with
  | EmptyString => EmptyString
  | String c rest => String (ascii_toLowerCase c) (toLowerCase rest)
  end.

(** [s.includes(pat)] for strings: [pat] occurs at some position of [s]. *)
Fixpoint string_includes (pat s : string) : bool :=
  String.prefix pat s ||
  match s with
  | EmptyString => false
  | String _ rest => string_includes pat rest
  end.

(** [/video/i.test(s)]: the word occurs in [s], letters compared without
    regard to ASCII case (a regular expression without the [u] flag never
    lets a non-ASCII character stand for an ASCII one). *)
Definition regex_video_i_test (s : string) : bool :=
  string_includes "video" (toLowerCase s).

(** [arr.includes(x)] for an array of strings and a possibly undefined [x]. *)
Definition array_includes (arr : list string) (x : option string) : bool :=
  match x with
  | Some s => existsb (String.eqb s) arr
  | None => false
  end.

(** Truthiness of a value that is either an object or [undefined]. *)
Definition truthy {A : Type} (x : option A) : bool :=
  match x with
  | Some _ => true
  | None => false
  end.

(** ** Completions *)

(** A call either returns or throws.  The two exceptions the script can meet:
    the [SecurityError] of a cross-origin document, and the [TypeError] of a
    property read on [undefined]. *)
Inductive Exception := SecurityError | TypeError.

Inductive Completion (A : Type) :=
  | Normal (a : A)
  | Throw (e : Exception).
Arguments Normal {A} a.
Arguments Throw {A} e.

(** [try { body } catch (error) { handler }] *)
Definition tryCatch {A : Type} (body : Completion A)
    (handler : Exception → Completion A) : Completion A :=
  match body with
  | Normal a => Normal a
  | Throw e => handler e
  end.

(** ** Selection state *)

(** An [HTMLVideoElement] as the script sees it: an identity, the reflected
    [src] (the empty string when the element has none) and the parent element,
    if any, by its identity in the DOM store. *)
Record HTMLVideoElement := mkVideo {
  videoId : nat;
  src : string;
  parentElement : option nat;
}.

(** The two refs of the component.  [videoSelectedIndex] only ever receives
    [0] or a list position offered by the picker, so it is a natural number. *)
Record AppState := mkApp {
  videoElements : list HTMLVideoElement;
  videoSelectedIndex : nat;
}.

(** [const video = computed(() => videoElements.value[videoSelectedIndex.value])]:
    indexing a JavaScript array out of range yields [undefined]. *)
Definition video (st : AppState) : option HTMLVideoElement :=
  videoElements st !! videoSelectedIndex st.

Definition initialState : AppState :=
  {| videoElements := []; videoSelectedIndex := 0 |}.

(** The callback [init] hands to [listenVideoUpdate], given the list the
    discovery pass returned:
    [videoElements.value = found;
     if (videoElements.value.length && !video.value) videoSelectedIndex.value = 0]. *)
Definition onVideoUpdate (found : list HTMLVideoElement) (st : AppState) : AppState :=
  let st1 := {| videoElements := found; videoSelectedIndex := videoSelectedIndex st |} in
  if negb (length (videoElements st1) =? 0) && negb (truthy (video st1))
  then {| videoElements := videoElements st1; videoSelectedIndex := 0 |}
  else st1.

(** The picker's radio input, [v-model="videoSelectedIndex"] with
    [:value="index - 1"]. *)
Definition pickVideo (i : nat) (st : AppState) : AppState :=
  {| videoElements := videoElements st; videoSelectedIndex := i |}.

(** What can happen to the selection state: a discovery pass completes with
    some list, or the user picks one of the entries the picker renders
    ([v-for="index in videoElements.length"]). *)
Inductive step : AppState → AppState → Prop :=
  | step_discovery found st :
      step st (onVideoUpdate found st)
  | step_pick i st :
      i < length (videoElements st) →
      step st (pickVideo i st).

Inductive reachable : AppState → Prop :=
  | reachable_init : reachable initialState
  | reachable_step st st' : reachable st → step st st' → reachable st'.

(** ** Key router *)

Record EventTarget := mkTarget {
  tagName : option string;
}.

Record KeyboardEvent := mkKeyEvent {
  key : string;
  target : option EventTarget;
  metaKey : bool;
  altKey : bool;
  ctrlKey : bool;
}.

(** [(event.target as Element)?.tagName?.toLowerCase()] *)
Definition targetTagLower (ev : KeyboardEvent) : option string :=
  match target ev with
  | Some t =>
      match tagName t with
      | Some name => Some (toLowerCase name)
      | None => None
      end
  | None => None
  end.

Definition shouldMapKey (st : AppState) (ev : KeyboardEvent) : bool :=
  if array_includes ["input"; "textarea"] (targetTagLower ev) then false
  else if metaKey ev || altKey ev || ctrlKey ev then false
  else if negb (truthy (video st)) then false
  else true.

Inductive KeyEventType := keyup | keydown.

(** The two methods the listener calls on the event when a plugin claimed it. *)
Inductive EventCall := stopImmediatePropagation | preventDefault.

Section KeyRouter.

(** [World] is everything a plugin handler may read and change: the playback
    state of the videos, the plugin objects' own fields, the toast.  The
    plugin classes themselves live in [../plugins]; the router only needs
    their two handlers. *)
Context {World Toast : Type}.

(** The object literal [{ event, video: video.value, toast }]. *)
Record PluginContext := mkContext {
  ctx_event : KeyboardEvent;
  ctx_video : option HTMLVideoElement;
  ctx_toast : Toast;
}.

Record Plugin := mkPlugin {
  onKeyUp : PluginContext → World → bool * World;
  onKeyDown : PluginContext → World → bool * World;
}.

(** [plugin[fnMap[type]]] *)
Definition fnMap (type : KeyEventType) (p : Plugin) :
    PluginContext → World → bool * World :=
  match type with
  | keyup => onKeyUp p
  | keydown => onKeyDown p
  end.

(** The state of the [forEach] loop: the local [ret], the world, and the log
    of handler calls made so far, each with the plugin's position in
    [plugins] and what the handler returned. *)
Record Dispatch := mkDispatch {
  ret : bool;
  world : World;
  calls : list (nat * bool);
}.

(** One round of the callback, [ret ||= plugin[fnMap[type]]({...})]: the
    logical-or assignment evaluates its right-hand side only when [ret] is
    still false. *)
Definition dispatchOne (type : KeyEventType) (ctx : PluginContext)
    (i : nat) (p : Plugin) (s : Dispatch) : Dispatch :=
  if ret s then s
  else
    let '(r, w) := fnMap type p ctx (world s) in
    {| ret := r; world := w; calls := calls s ++ [(i, r)] |}.

(** [plugins.forEach(...)], from position [i] on. *)
Fixpoint forEachPlugin (type : KeyEventType) (ctx : PluginContext)
    (ps : list Plugin) (i : nat) (s : Dispatch) : Dispatch :=
  match ps with
  | [] => s
  | p :: rest => forEachPlugin type ctx rest (S i) (dispatchOne type ctx i p s)
  end.

(** What one run of the listener did. *)
Record Outcome := mkOutcome {
  handlerCalls : list (nat * bool);
  eventCalls : list EventCall;
  worldAfter : World;
}.

(** The listener [listenKeyEvent(type)] installs on [window]. *)
Definition keyListener (type : KeyEventType) (plugins : list Plugin)
    (toast : Toast) (st : AppState) (ev : KeyboardEvent) (w : World) : Outcome :=
  if negb (shouldMapKey st ev) then
    {| handlerCalls := []; eventCalls := []; worldAfter := w |}
  else
    let ctx := {| ctx_event := ev; ctx_video := video st; ctx_toast := toast |} in
    let s := forEachPlugin type ctx plugins 0
               {| ret := false; world := w; calls := [] |} in
    {| handlerCalls := calls s;
       eventCalls := if ret s then [stopImmediatePropagation; preventDefault] else [];
       worldAfter := world s |}.

(** The dispatch as the specification words it: every handler is called, in
    registration order, and the results are or-ed. *)
Fixpoint dispatchAll (type : KeyEventType) (ctx : PluginContext)
    (ps : list Plugin) (w : World) : bool * World :=
  match ps with
  | [] => (false, w)
  | p :: rest =>
      let '(r, w1) := fnMap type p ctx w in
      let '(r', w2) := dispatchAll type ctx rest w1 in
      (r || r', w2)
  end.

(** The handler calls the loop makes from position [i] on when [ret] is
    still false: the calls run up to and including the first handler that
    returns [true]. *)
Fixpoint callsFrom (type : KeyEventType) (ctx : PluginContext)
    (ps : list Plugin) (i : nat) (w : World) : list (nat * bool) :=
  match ps with
  | [] => []
  | p :: rest =>
      let '(r, w1) := fnMap type p ctx w in
      (i, r) :: (if r then [] else callsFrom type ctx rest (S i) w1)
  end.

End KeyRouter.

Arguments PluginContext : clear implicits.
Arguments Plugin : clear implicits.
Arguments Dispatch : clear implicits.
Arguments Outcome : clear implicits.

(** How often the handler of the plugin at position [i] was called. *)
Definition invocations (i : nat) (log : list (nat * bool)) : nat :=
  length (filter (λ c, c.1 = i) log).

(** Whether a plugin registered before position [i] claimed the event. *)
Definition claimedBefore (i : nat) (log : list (nat * bool)) : bool :=
  existsb (λ c, (c.1 <? i) && c.2) log.

(** The router-totality property as the specification words it, at one run of
    the listener: every registered handler is called exactly once. *)
Definition RouterTotality {World Toast : Type} (type : KeyEventType)
    (plugins : list (Plugin World Toast)) (toast : Toast)
    (st : AppState) (ev : KeyboardEvent) (w : World) : Prop :=
  shouldMapKey st ev = true →
  ∀ i, i < length plugins →
    invocations i (handlerCalls (keyListener type plugins toast st ev w)) = 1.

(** A sample plugin that claims the keys of [keys] on key-down and nothing on
    key-up; its world counts the handler runs. *)
Definition keyPlugin (keys : list string) : Plugin nat unit :=
  {| onKeyUp := λ _ n, (false, S n);
     onKeyDown := λ ctx n, (existsb (String.eqb (key (ctx_event ctx))) keys, S n) |}.

(** Two of the registered plugins, with the keys of the header comment: pause
    on the space bar, then speed on [z], [x], [c]. *)
Definition samplePlugins : list (Plugin nat unit) :=
  [keyPlugin [" "]; keyPlugin ["z"; "x"; "c"]].

Definition sampleVideo (n : nat) : HTMLVideoElement :=
  {| videoId := n; src := "https://example.org/clip.mp4"; parentElement := Some n |}.

Definition keyPress (k : string) (tag : option string) : KeyboardEvent :=
  {| key := k; target := Some {| tagName := tag |};
     metaKey := false; altKey := false; ctrlKey := false |}.

(** ** Video discovery *)

(** [document.querySelectorAll('video')]: the document's video elements, in
    document order. *)
Record Document := mkDocument {
  querySelectorAll_video : list HTMLVideoElement;
}.

(** A [Window] as discovery meets it.  [crossOrigin] tells whether the frame
    belongs to another origin than the script: then reading [frame.document]
    throws a [SecurityError], and so does [Array.from(frame.frames)], whose
    first step reads [frame.frames[Symbol.iterator]]; [frame.frames] itself
    and its [length] are readable across origins.  [document] is what a
    same-origin read of [frame.document] yields.  [frames] holds the child
    browsing contexts in the order of [window.frames], the order in which
    their containers were inserted into the document.  [containerPosition] is
    the place of the frame's own container among the frames of the parent
    document in tree order; the script never reads it. *)
Inductive Window := mkWindow {
  crossOrigin : bool;
  document : option Document;
  containerPosition : nat;
  frames : list Window;
}.

(** Reading [frame.document]. *)
Definition readDocument (frame : Window) : Completion (option Document) :=
  if crossOrigin frame then Throw SecurityError else Normal (document frame).

(** The first step of [Array.from(frame.frames)]: reading the iterator
    method of the collection. *)
Definition readIterator (frame : Window) : Completion unit :=
  if crossOrigin frame then Throw SecurityError else Normal tt.

(** The block inside [try]: [if (frame.document) elements.push(...filtered)],
    as the list of elements it pushes. *)
Definition readFrameVideos (frame : Window) : Completion (list HTMLVideoElement) :=
  match readDocument frame with
  | Throw e => Throw e
  | Normal None => Normal []
  | Normal (Some doc) =>
      Normal (filter (λ v, src v ≠ EmptyString) (querySelectorAll_video doc))
  end.

(** Only the read of the document is inside [try]; the test of
    [frame.frames.length], [Array.from(frame.frames)] and the recursive calls
    come after the [catch], so what they throw leaves the function. *)
Fixpoint getAllValidVideoElements (frame : Window) :
    Completion (list HTMLVideoElement) :=
  let elements : list HTMLVideoElement := [] in
  match tryCatch (readFrameVideos frame) (λ _, Normal []) with
  | Throw e => Throw e
  | Normal pushed =>
      let elements := elements ++ pushed in
      if negb (length (frames frame) =? 0) then
        match readIterator frame with
        | Throw e => Throw e
        | Normal _ =>
            (fix forEachFrame (fs : list Window) (elements : list HTMLVideoElement) :=
               match fs with
               | [] => Normal elements
               | f :: rest =>
                   match getAllValidVideoElements f with
                   | Throw e => Throw e
                   | Normal found => forEachFrame rest (elements ++ found)
                   end
               end) (frames frame) elements
        end
      else Normal elements
  end.

(** The videos a frame adds of its own: those of its document that have a
    source, when the document can be read. *)
Definition ownVideos (frame : Window) : list HTMLVideoElement :=
  if crossOrigin frame then []
  else match document frame with
       | Some doc => filter (λ v, src v ≠ EmptyString) (querySelectorAll_video doc)
       | None => []
       end.

(** The list a walk of the whole tree would give: the frame's own videos,
    then the lists of the child frames, in the order of [frames]. *)
Fixpoint discover (frame : Window) : list HTMLVideoElement :=
  ownVideos frame ++ flat_map discover (frames frame).

(** Whether the walk meets a cross-origin frame that has child frames. *)
Fixpoint raises (frame : Window) : bool :=
  negb (length (frames frame) =? 0)
  && (crossOrigin frame || existsb raises (frames frame)).

(** The whole callback of [init]: run discovery on [window], then update the
    selection state.  When discovery throws, nothing is assigned. *)
Definition videoUpdateCallback (window : Window) (st : AppState) :
    Completion AppState :=
  match getAllValidVideoElements window with
  | Throw e => Throw e
  | Normal found => Normal (onVideoUpdate found st)
  end.

(** ** Mutation watcher *)

(** A DOM node: [nodeType], [nodeName], the reflected [className] and the
    child nodes in document order. *)
Inductive Node := mkNode {
  nodeType : nat;
  nodeName : string;
  className : string;
  childNodes : list Node;
}.

Definition ELEMENT_NODE : nat := 1.
Definition TEXT_NODE : nat := 3.

(** An element the type selector [iframe] matches. *)
Definition isIframe (n : Node) : bool :=
  (nodeType n =? ELEMENT_NODE) && String.eqb (toLowerCase (nodeName n)) "iframe".

(** [node.querySelector('iframe')]: the first descendant of [node], in
    document order, that is an [iframe] element; the node itself is not a
    candidate. *)
Fixpoint querySelector_iframe (node : Node) : option Node :=
  (fix firstIn (cs : list Node) : option Node :=
     match cs with
     | [] => None
     | c :: rest =>
         if isIframe c then Some c
         else match querySelector_iframe c with
              | Some found => Some found
              | None => firstIn rest
              end
     end) (childNodes node).

Definition mayContainsVideoElement (node : Node) : bool :=
  if negb (nodeType node =? ELEMENT_NODE) then false
  else if String.eqb (nodeName node) "VIDEO" then true
  else if regex_video_i_test (className node) then true
  else if truthy (querySelector_iframe node) then true
  else false.

Record MutationRecord := mkMutation {
  addedNodes : list Node;
  removedNodes : list Node;
}.

(** The calls [listenVideoUpdate] makes on the host.  The only callback it ever
    passes on is [onVideoUpdate]; [setTimeout] records the delay in
    milliseconds, [0] when the argument is left out. *)
Inductive HostCall :=
  | observe (subtree childList : bool)
  | setTimeout (delay : nat)
  | addHashChangeListener.

#[global] Instance HostCall_eq_dec : EqDecision HostCall.
Proof. solve_decision. Defined.

(** The callback given to [new MutationObserver]. *)
Definition observerCallback (mutations : list MutationRecord) : list HostCall :=
  flat_map (λ mutation,
    flat_map (λ node, if negb (mayContainsVideoElement node) then []
                      else [setTimeout 1000]) (addedNodes mutation)
    ++
    flat_map (λ node, if negb (mayContainsVideoElement node) then []
                      else [setTimeout 0]) (removedNodes mutation))
    mutations.

(** The body of [listenVideoUpdate] after the observer is built. *)
Definition listenVideoUpdate : list HostCall :=
  [observe true true; setTimeout 0; addHashChangeListener].

(** What the host delivers to the script once [listenVideoUpdate] has run. *)
Inductive HostEvent :=
  | mutationsObserved (mutations : list MutationRecord)
  | hashchange
  | timerFired.

(** The script's reaction to a host event: the timers it asks for, and the
    selection state after it.  A [hashchange] or an expired timer runs
    [onVideoUpdate] once, at once; a mutation batch only schedules. *)
Definition onHostEvent (window : Window) (e : HostEvent) (st : AppState) :
    Completion (list HostCall * AppState) :=
  match e with
  | mutationsObserved mutations => Normal (observerCallback mutations, st)
  | hashchange | timerFired =>
      match videoUpdateCallback window st with
      | Throw err => Throw err
      | Normal st' => Normal ([], st')
      end
  end.

Definition isTimer (h : HostCall) : bool :=
  match h with
  | setTimeout _ => true
  | _ => false
  end.

(** How many timers with the given delay a list of host calls asks for. *)
Definition timersWithDelay (delay : nat) (hs : list HostCall) : nat :=
  length (filter (λ h, h = setTimeout delay) hs).

(** How many nodes of a list satisfy the watcher's predicate. *)
Definition plausibleCount (nodes : list Node) : nat :=
  length (filter (λ n, mayContainsVideoElement n = true) nodes).

(** ** Picker: outline bookkeeping *)

(** The DOM store the picker edits: the child nodes of each element, by the
    element's identity.  An element without an entry has no children. *)
Definition childrenOf (dom : gmap nat (list Node)) (p : nat) : list Node :=
  default [] (dom !! p).

Definition outlineClass : string := "video-controller-video-outline".

(** [parent.firstElementChild] *)
Definition firstElementChild (cs : list Node) : option Node :=
  find (λ n, nodeType n =? ELEMENT_NODE) cs.

(** [video.parentElement?.firstElementChild?.className] *)
Definition firstSiblingClass (dom : gmap nat (list Node))
    (v : HTMLVideoElement) : option string :=
  match parentElement v with
  | Some p =>
      match firstElementChild (childrenOf dom p) with
      | Some c => Some (className c)
      | None => None
      end
  | None => None
  end.

(** [x === 'video-controller-video-outline'] for a possibly undefined [x]. *)
Definition isOutlineClass (x : option string) : bool :=
  match x with
  | Some s => String.eqb s outlineClass
  | None => false
  end.

(** The [div] that [selectVideo] creates; its inline style is presentation
    only and is left out. *)
Definition outlineDiv : Node :=
  {| nodeType := ELEMENT_NODE; nodeName := "DIV";
     className := outlineClass; childNodes := [] |}.

(** [firstElementChild.remove()]: the child list without its first element
    node. *)
Fixpoint removeFirstElementChild (cs : list Node) : list Node :=
  match cs with
  | [] => []
  | c :: rest =>
      if nodeType c =? ELEMENT_NODE then rest
      else c :: removeFirstElementChild rest
  end.

Definition selectVideo (index : nat) (st : AppState)
    (dom : gmap nat (list Node)) : Completion (gmap nat (list Node)) :=
  match videoElements st !! index with
  | None => Throw TypeError
  | Some v =>
      if isOutlineClass (firstSiblingClass dom v) then Normal dom
      else
        let div := outlineDiv in
        match parentElement v with
        | Some p => Normal (<[p := div :: childrenOf dom p]> dom)
        | None => Normal dom
        end
  end.

Definition unselectVideo (index : nat) (st : AppState)
    (dom : gmap nat (list Node)) : Completion (gmap nat (list Node)) :=
  match videoElements st !! index with
  | None => Throw TypeError
  | Some v =>
      if negb (isOutlineClass (firstSiblingClass dom v)) then Normal dom
      else
        match parentElement v with
        | Some p => Normal (<[p := removeFirstElementChild (childrenOf dom p)]> dom)
        | None => Normal dom
        end
  end.

(** An outline: an element carrying the outline class. *)
Definition isOutline (n : Node) : bool :=
  (nodeType n =? ELEMENT_NODE) && String.eqb (className n) outlineClass.

(** Whether some child of element [p] is an outline, and how many are. *)
Definition hasOutline (dom : gmap nat (list Node)) (p : nat) : bool :=
  existsb isOutline (childrenOf dom p).

Definition outlineCount (dom : gmap nat (list Node)) (p : nat) : nat :=
  length (filter (λ n, isOutline n = true) (childrenOf dom p)).

(** What the picker's two handlers can do to the DOM while the list of videos
    stays the same. *)
Inductive pickerStep (st : AppState) :
    gmap nat (list Node) → gmap nat (list Node) → Prop :=
  | picker_enter i dom dom' :
      selectVideo i st dom = Normal dom' → pickerStep st dom dom'
  | picker_leave i dom dom' :
      unselectVideo i st dom = Normal dom' → pickerStep st dom dom'.

Inductive pickerReach (st : AppState) (dom0 : gmap nat (list Node)) :
    gmap nat (list Node) → Prop :=
  | pickerReach_start : pickerReach st dom0 dom0
  | pickerReach_step dom dom' :
      pickerReach st dom0 dom → pickerStep st dom dom' → pickerReach st dom0 dom'.

(** What the picker's handlers keep true of every element [q], from a page
    [dom0] without outlines: the children of [q] are those of the page,
    possibly with one outline in front. *)
Definition outlineInvariant (dom0 dom : gmap nat (list Node)) : Prop :=
  ∀ q, childrenOf dom q = childrenOf dom0 q
       ∨ childrenOf dom q = outlineDiv :: childrenOf dom0 q.

(** ** Vocabulary of the properties *)

(** The selection-state rule as the specification words it: the index is
    reset to [0] exactly when the previous list was empty and the new one is
    not, and is kept in every other case. *)
Definition ResetOnFirstDiscovery (found : list HTMLVideoElement)
    (st : AppState) : Prop :=
  videoElements (onVideoUpdate found st) = found
  ∧ videoSelectedIndex (onVideoUpdate found st)
    = if (length (videoElements st) =? 0) && negb (length found =? 0)
      then 0 else videoSelectedIndex st.

(** [videoIn w v]: [v] is a video element of a readable document of the
    frame tree under [w]. *)
Inductive videoIn : Window → HTMLVideoElement → Prop :=
  | videoIn_here w doc v :
      crossOrigin w = false →
      document w = Some doc →
      v ∈ querySelectorAll_video doc →
      videoIn w v
  | videoIn_frame w f v :
      f ∈ frames w →
      videoIn f v →
      videoIn w v.

(** [mentionsVideo s]: some stretch of [s] reads [video] once its letters are
    lower-cased. *)
Definition mentionsVideo (s : string) : Prop :=
  ∃ pre w post, s = pre +:+ w +:+ post ∧ toLowerCase w = "video".

(** [descendant n d]: [d] lies strictly below [n] in the node tree. *)
Inductive descendant : Node → Node → Prop :=
  | descendant_child n c :
      c ∈ childNodes n → descendant n c
  | descendant_deeper n c d :
      c ∈ childNodes n → descendant c d → descendant n d.

(** Sample nodes: a [video] element without class, and a wrapper [div] with
    an unrelated class around it. *)
Definition videoNode : Node :=
  {| nodeType := ELEMENT_NODE; nodeName := "VIDEO"; className := ""; childNodes := [] |}.

Definition wrapperNode : Node :=
  {| nodeType := ELEMENT_NODE; nodeName := "DIV"; className := "player-box";
     childNodes := [videoNode] |}.

Definition textNode : Node :=
  {| nodeType := TEXT_NODE; nodeName := "#text"; className := ""; childNodes := [] |}.

(** A sample page for the picker: one video whose parent, element [0], holds
    a text node and the video. *)
Definition samplePage : gmap nat (list Node) := {[ 0 := [textNode; videoNode] ]}.

Definition samplePicker : AppState :=
  {| videoElements := [sampleVideo 0]; videoSelectedIndex := 0 |}.

(** ** Frame tree, picker template *)

(** The frames of a tree in pre-order: a window, then the trees of its child
    frames, left to right. *)
Fixpoint preorder (frame : Window) : list Window :=
  frame :: flat_map preorder (frames frame).

(** The frames discovery can get to: it does not enumerate the child frames
    of a cross-origin frame. *)
Fixpoint walk (frame : Window) : list Window :=
  frame :: (if crossOrigin frame then [] else flat_map walk (frames frame)).

(** Child frames sorted by the place of their containers in the document. *)
Fixpoint insertByPosition (f : Window) (fs : list Window) : list Window :=
  match fs with
  | [] => [f]
  | g :: rest =>
      if containerPosition f <=? containerPosition g then f :: g :: rest
      else g :: insertByPosition f rest
  end.

Definition inDocumentOrder (fs : list Window) : list Window :=
  foldr insertByPosition [] fs.

(** The discovery order as the specification words it, at one frame: the call
    returns the frame's own videos followed by what the calls on its child
    frames return, the child frames taken in document order. *)
Definition DiscoveryInDocumentOrder (w : Window) : Prop :=
  ∃ found results,
    getAllValidVideoElements w = Normal found
    ∧ Forall2 (λ f r, getAllValidVideoElements f = Normal r)
        (inDocumentOrder (frames w)) results
    ∧ found = ownVideos w ++ concat results.

(** The template.  The picker is rendered under [v-if="videoElements.length"];
    [v-for="index in videoElements.length"] runs [index] over [1..length]. *)
Definition pickerRendered (st : AppState) : bool :=
  negb (length (videoElements st) =? 0).

Definition pickerEntries (st : AppState) : list nat :=
  if pickerRendered st then seq 1 (length (videoElements st)) else [].

(** [:value="index - 1"], also the argument of both hover handlers. *)
Definition entryValue (index : nat) : nat := index - 1.

(** A radio input bound with [v-model] is checked when its value equals the
    model. *)
Definition entryChecked (st : AppState) (index : nat) : bool :=
  entryValue index =? videoSelectedIndex st.

(** The children of an element that are not outlines: the page's own nodes. *)
Definition pageNodes (dom : gmap nat (list Node)) (q : nat) : list Node :=
  filter (λ n, isOutline n = false) (childrenOf dom q).

(** Sample frame trees.  [samplePageWindow]: a page whose only child frame
    is cross-origin and itself embeds a frame.  [quietPage]: a page with a
    cross-origin frame that has no frames of its own, and a same-origin frame
    with one video.  [reorderedPage]: a page whose second frame was inserted
    in front of the first. *)
Definition sameOriginFrame (position : nat) (v : HTMLVideoElement) : Window :=
  {| crossOrigin := false;
     document := Some {| querySelectorAll_video := [v] |};
     containerPosition := position;
     frames := [] |}.

Definition innerFrame : Window := sameOriginFrame 0 (sampleVideo 7).

Definition foreignFrame : Window :=
  {| crossOrigin := true; document := None; containerPosition := 0;
     frames := [innerFrame] |}.

Definition foreignLeaf : Window :=
  {| crossOrigin := true; document := None; containerPosition := 0;
     frames := [] |}.

Definition pageWith (fs : list Window) : Window :=
  {| crossOrigin := false;
     document := Some {| querySelectorAll_video :=
       [sampleVideo 1; {| videoId := 2; src := ""; parentElement := Some 2 |}] |};
     containerPosition := 0;
     frames := fs |}.

Definition samplePageWindow : Window := pageWith [foreignFrame].

Definition quietPage : Window := pageWith [foreignLeaf; sameOriginFrame 1 (sampleVideo 7)].

Definition reorderedPage : Window :=
  pageWith [sameOriginFrame 1 (sampleVideo 8); sameOriginFrame 0 (sampleVideo 9)].

Definition iframeNode : Node :=
  {| nodeType := ELEMENT_NODE; nodeName := "IFRAME"; className := "embed";
     childNodes := [] |}.

(** * Properties *)

(** ** Strings *)

Example toLowerCase_tag : toLowerCase "TextArea" = "textarea".
Proof. reflexivity. Qed.

Example regex_video_i_test_hit : regex_video_i_test "html5-Video-player" = true.
Proof. reflexivity. Qed.

Example regex_video_i_test_miss : regex_video_i_test "vid eo-player" = false.
Proof. reflexivity. Qed.

Lemma append_cons (c : ascii) (a b : string) :
  String c a +:+ b = String c (a +:+ b).
Proof. reflexivity. Qed.

Lemma prefix_app (pat s : string) :
  String.prefix pat s = true ↔ ∃ post, s = pat +:+ post.
Proof.
  revert s. induction pat as [|a pat IH]; intros s.
  - split; [intros _; by exists s | by destruct s].
  - destruct s as [|b s]; simpl; [split; [done | by intros [? ?]]|].
    destruct (Ascii.ascii_dec a b) as [->|Hne].
    + rewrite IH. split; intros [post Hpost]; exists post;
        rewrite append_cons in *; congruence.
    + split; [done|]. intros [post Hpost]. rewrite append_cons in Hpost. congruence.
Qed.

Lemma string_includes_app (pat s : string) :
  string_includes pat s = true ↔ ∃ pre post, s = pre +:+ pat +:+ post.
Proof.
  induction s as [|c s IH].
  - change (string_includes pat EmptyString)
      with (String.prefix pat EmptyString || false).
    rewrite orb_true_iff, prefix_app. split.
    + intros [[post Hpost] | ?]; [|done]. by exists EmptyString, post.
    + intros (pre & post & Heq). left.
      destruct pre; [by exists post | by rewrite append_cons in Heq].
  - change (string_includes pat (String c s))
      with (String.prefix pat (String c s) || string_includes pat s).
    rewrite orb_true_iff, prefix_app, IH. split.
    + intros [[post Hpost] | (pre & post & Hs)].
      * by exists EmptyString, post.
      * exists (String c pre), post. by rewrite append_cons, Hs.
    + intros (pre & post & Heq). destruct pre as [|c' pre].
      * left. by exists post.
      * right. exists pre, post. rewrite append_cons in Heq. congruence.
Qed.

Lemma toLowerCase_app (a b : string) :
  toLowerCase (a +:+ b) = toLowerCase a +:+ toLowerCase b.
Proof.
  induction a as [|c a IH]; [done|].
  rewrite append_cons. simpl. by rewrite append_cons, IH.
Qed.

Lemma toLowerCase_split (s x y : string) :
  toLowerCase s = x +:+ y →
  ∃ a b, s = a +:+ b ∧ toLowerCase a = x ∧ toLowerCase b = y.
Proof.
  revert s. induction x as [|c x IH]; intros s Hs.
  - by exists EmptyString, s.
  - rewrite append_cons in Hs.
    destruct s as [|c' s]; [done|]. simpl in Hs. injection Hs as Hc Hrest.
    destruct (IH s Hrest) as (a & b & -> & Ha & Hb).
    exists (String c' a), b. simpl. by rewrite Hc, Ha.
Qed.

(** The regular expression test says that the class name mentions [video]. *)
Lemma regex_video_i_test_spec (s : string) :
  regex_video_i_test s = true ↔ mentionsVideo s.
Proof.
  unfold regex_video_i_test, mentionsVideo. rewrite string_includes_app. split.
  - intros (pre & post & Hlow).
    destruct (toLowerCase_split s pre ("video" +:+ post) Hlow) as (a & b & -> & _ & Hb).
    destruct (toLowerCase_split b "video" post Hb) as (w & b' & -> & Hw & _).
    by exists a, w, b'.
  - intros (pre & w & post & -> & Hw).
    exists (toLowerCase pre), (toLowerCase post).
    by rewrite !toLowerCase_app, Hw.
Qed.

(** ** Key router *)

Section KeyRouterFacts.

Context {World Toast : Type}.
Implicit Types (ps plugins : list (Plugin World Toast)).
Implicit Types (s : Dispatch World) (ctx : PluginContext Toast).

(** Once [ret] is true the rest of the loop changes nothing. *)
Lemma forEachPlugin_claimed type ctx ps i s :
  ret s = true → forEachPlugin type ctx ps i s = s.
Proof.
  revert i. induction ps as [|p rest IH]; intros i Hret; simpl; [done|].
  unfold dispatchOne. rewrite Hret. by apply IH.
Qed.

(** While [ret] is false the loop appends exactly [callsFrom]. *)
Lemma forEachPlugin_calls type ctx ps i s :
  ret s = false →
  calls (forEachPlugin type ctx ps i s)
    = calls s ++ callsFrom type ctx ps i (world s)
  ∧ ret (forEachPlugin type ctx ps i s)
    = existsb snd (callsFrom type ctx ps i (world s)).
Proof.
  revert i s. induction ps as [|p rest IH]; intros i s Hret; simpl.
  - by rewrite app_nil_r.
  - unfold dispatchOne. rewrite Hret.
    destruct (fnMap type p ctx (world s)) as [r w1] eqn:Hcall.
    destruct r; simpl.
    + by rewrite forEachPlugin_claimed.
    + destruct (IH (S i) {| ret := false; world := w1;
                            calls := calls s ++ [(i, false)] |} eq_refl)
        as [Hc Hr].
      simpl in Hc, Hr. rewrite Hc, Hr. by rewrite <- app_assoc.
Qed.

Lemma callsFrom_positions type ctx ps i w :
  Forall (λ c, i ≤ c.1) (callsFrom type ctx ps i w).
Proof.
  revert i w. induction ps as [|p rest IH]; intros i w; simpl; [constructor|].
  destruct (fnMap type p ctx w) as [r w1]. constructor; [simpl; lia|].
  destruct r; [constructor|].
  eapply Forall_impl; [apply IH|]. simpl. intros; lia.
Qed.

(** The positions in the log are consecutive: no handler is called twice,
    none is called out of order. *)
Lemma callsFrom_order type ctx ps i w :
  (callsFrom type ctx ps i w).*1 = seq i (length (callsFrom type ctx ps i w)).
Proof.
  revert i w. induction ps as [|p rest IH]; intros i w; simpl; [done|].
  destruct (fnMap type p ctx w) as [r w1]. destruct r; simpl; [done|].
  by rewrite IH.
Qed.

Lemma invocations_later j i (log : list (nat * bool)) :
  Forall (λ c, i ≤ c.1) log → j < i →
  invocations j log = 0 ∧ claimedBefore j log = false.
Proof.
  intros Hall Hlt. unfold invocations, claimedBefore.
  induction Hall as [|c log Hc Hall IH]; [done|].
  destruct IH as [IH1 IH2]. simpl. rewrite IH2. split.
  - rewrite filter_cons_False; [done | lia].
  - replace (c.1 <? j) with false; [done|].
    symmetry. apply Nat.ltb_ge. lia.
Qed.

Lemma callsFrom_invocations type ctx ps i w j :
  i ≤ j < i + length ps →
  invocations j (callsFrom type ctx ps i w)
    = if claimedBefore j (callsFrom type ctx ps i w) then 0 else 1.
Proof.
  revert i w. induction ps as [|p rest IH]; intros i w Hj; simpl in *; [lia|].
  destruct (fnMap type p ctx w) as [r w1].
  destruct (decide (i = j)) as [->|Hne].
  - destruct (invocations_later j (S j)
                (if r then [] else callsFrom type ctx rest (S j) w1))
      as [H0 Hc].
    { destruct r; [constructor | apply callsFrom_positions]. }
    { lia. }
    unfold invocations, claimedBefore in *. simpl.
    rewrite filter_cons_True by done. simpl. rewrite H0, Hc.
    by rewrite Nat.ltb_irrefl.
  - unfold invocations, claimedBefore in *. simpl.
    rewrite filter_cons_False by (simpl; lia).
    replace (i <? j) with true by (symmetry; apply Nat.ltb_lt; lia).
    destruct r; simpl; [done|].
    apply IH. lia.
Qed.

Lemma keyListener_calls type plugins toast st ev w :
  shouldMapKey st ev = true →
  handlerCalls (keyListener type plugins toast st ev w)
    = callsFrom type {| ctx_event := ev; ctx_video := video st; ctx_toast := toast |}
        plugins 0 w
  ∧ eventCalls (keyListener type plugins toast st ev w)
    = if existsb snd (handlerCalls (keyListener type plugins toast st ev w))
      then [stopImmediatePropagation; preventDefault] else [].
Proof.
  intros Hok. unfold keyListener. rewrite Hok. simpl.
  destruct (forEachPlugin_calls type
              {| ctx_event := ev; ctx_video := video st; ctx_toast := toast |}
              plugins 0 {| ret := false; world := w; calls := [] |} eq_refl)
    as [Hc Hr].
  simpl in Hc, Hr. by rewrite Hc, Hr.
Qed.

(** The short-circuiting loop and the loop that calls every handler agree
    on the combined result. *)
Lemma callsFrom_dispatchAll type ctx ps i w :
  existsb snd (callsFrom type ctx ps i w) = (dispatchAll type ctx ps w).1.
Proof.
  revert i w. induction ps as [|p rest IH]; intros i w; simpl; [done|].
  destruct (fnMap type p ctx w) as [r w1].
  destruct (dispatchAll type ctx rest w1) as [r' w2] eqn:Hrest.
  destruct r; simpl; [done|]. by rewrite IH, Hrest.
Qed.

End KeyRouterFacts.

(** C1 (as amended): for every qualifying key event the router calls the
    handlers in registration order, each at most once, and calls the handler
    at position [i] exactly once unless a plugin registered before it has
    returned [true], in which case it is not called at all; so when no
    handler returns [true], every registered handler is called exactly once. *)
Theorem router_dispatch_until_claimed {World Toast : Type} (type : KeyEventType)
    (plugins : list (Plugin World Toast)) (toast : Toast)
    (st : AppState) (ev : KeyboardEvent) (w : World) :
  shouldMapKey st ev = true →
  (∀ i, i < length plugins →
     invocations i (handlerCalls (keyListener type plugins toast st ev w))
       = if claimedBefore i (handlerCalls (keyListener type plugins toast st ev w))
         then 0 else 1)
  ∧ (handlerCalls (keyListener type plugins toast st ev w)).*1
      = seq 0 (length (handlerCalls (keyListener type plugins toast st ev w)))
  ∧ (existsb snd (handlerCalls (keyListener type plugins toast st ev w)) = false →
     ∀ i, i < length plugins →
       invocations i (handlerCalls (keyListener type plugins toast st ev w)) = 1).
Proof.
  intros Hok.
  destruct (keyListener_calls type plugins toast st ev w Hok) as [Hcalls _].
  rewrite Hcalls.
  set (ctx := {| ctx_event := ev; ctx_video := video st; ctx_toast := toast |}).
  assert (Hinv : ∀ i, i < length plugins →
            invocations i (callsFrom type ctx plugins 0 w)
              = if claimedBefore i (callsFrom type ctx plugins 0 w) then 0 else 1).
  { intros i Hi. apply callsFrom_invocations. lia. }
  split; [exact Hinv|]. split; [apply callsFrom_order|].
  intros Hnone i Hi. rewrite (Hinv i Hi).
  replace (claimedBefore i (callsFrom type ctx plugins 0 w)) with false; [done|].
  symmetry. unfold claimedBefore.
  apply not_true_is_false. intros Hex.
  apply existsb_exists in Hex as (c & Hin & Hc).
  apply andb_true_iff in Hc as [_ Hc].
  assert (existsb snd (callsFrom type ctx plugins 0 w) = true) as Hyes.
  { apply existsb_exists. by exists c. }
  congruence.
Qed.

(** A key-down of [c] outside any text field, with one video selected: the
    first sample plugin does not claim it, the second does, and both handlers
    run once. *)
Lemma router_dispatch_until_claimed_witness :
  invocations 0 (handlerCalls (keyListener keydown samplePlugins tt
     {| videoElements := [sampleVideo 0]; videoSelectedIndex := 0 |}
     (keyPress "c" (Some "DIV")) 0)) = 1
  ∧ invocations 1 (handlerCalls (keyListener keydown samplePlugins tt
     {| videoElements := [sampleVideo 0]; videoSelectedIndex := 0 |}
     (keyPress "c" (Some "DIV")) 0)) = 1.
Proof.
  destruct (router_dispatch_until_claimed keydown samplePlugins tt
              {| videoElements := [sampleVideo 0]; videoSelectedIndex := 0 |}
              (keyPress "c" (Some "DIV")) 0 eq_refl) as (Hinv & _ & _).
  split; [apply (Hinv 0) | apply (Hinv 1)]; simpl; lia.
Defined.

(** C1 (as stated) fails: on a key-down of the space bar the first sample
    plugin claims the event, and the handler of the second is never called. *)
Lemma router_totality_counterexample :
  shouldMapKey {| videoElements := [sampleVideo 0]; videoSelectedIndex := 0 |}
               (keyPress " " (Some "DIV")) = true
  ∧ handlerCalls (keyListener keydown samplePlugins tt
       {| videoElements := [sampleVideo 0]; videoSelectedIndex := 0 |}
       (keyPress " " (Some "DIV")) 0) = [(0, true)]
  ∧ ¬ RouterTotality keydown samplePlugins tt
        {| videoElements := [sampleVideo 0]; videoSelectedIndex := 0 |}
        (keyPress " " (Some "DIV")) 0.
Proof.
  split; [reflexivity|]. split; [reflexivity|].
  intros Htotal. specialize (Htotal eq_refl 1 ltac:(simpl; lia)).
  vm_compute in Htotal. discriminate.
Qed.

(** C3: for every qualifying key event the listener calls
    [stopImmediatePropagation] and [preventDefault] on the event if and only
    if some plugin handler returned [true] (the or of the plugin results, which
    is also the or a loop calling every handler would compute); otherwise it
    calls nothing on the event. *)
Theorem router_suppression_iff_claimed {World Toast : Type} (type : KeyEventType)
    (plugins : list (Plugin World Toast)) (toast : Toast)
    (st : AppState) (ev : KeyboardEvent) (w : World) :
  shouldMapKey st ev = true →
  (eventCalls (keyListener type plugins toast st ev w)
     = [stopImmediatePropagation; preventDefault]
   ↔ existsb snd (handlerCalls (keyListener type plugins toast st ev w)) = true)
  ∧ (eventCalls (keyListener type plugins toast st ev w) = []
   ↔ existsb snd (handlerCalls (keyListener type plugins toast st ev w)) = false)
  ∧ existsb snd (handlerCalls (keyListener type plugins toast st ev w))
    = (dispatchAll type
         {| ctx_event := ev; ctx_video := video st; ctx_toast := toast |}
         plugins w).1.
Proof.
  intros Hok.
  destruct (keyListener_calls type plugins toast st ev w Hok) as [Hcalls Hev].
  rewrite Hev.
  split; [|split].
  - destruct (existsb snd _); split; congruence.
  - destruct (existsb snd _); split; congruence.
  - rewrite Hcalls. apply callsFrom_dispatchAll.
Qed.

Lemma router_suppression_iff_claimed_witness :
  eventCalls (keyListener keydown samplePlugins tt
     {| videoElements := [sampleVideo 0]; videoSelectedIndex := 0 |}
     (keyPress "x" (Some "BODY")) 0)
  = [stopImmediatePropagation; preventDefault].
Proof.
  apply (router_suppression_iff_claimed keydown samplePlugins tt
           {| videoElements := [sampleVideo 0]; videoSelectedIndex := 0 |}
           (keyPress "x" (Some "BODY")) 0 eq_refl).
  reflexivity.
Defined.

(** C4: when the event's target is an [input] or a [textarea], or the meta,
    alt or control key is held, or there is no active video, the listener
    returns before the dispatch loop: no plugin handler is called, nothing is
    called on the event, and the world is left as it was. *)
Theorem router_filter_blocks_dispatch {World Toast : Type} (type : KeyEventType)
    (plugins : list (Plugin World Toast)) (toast : Toast)
    (st : AppState) (ev : KeyboardEvent) (w : World) :
  (∃ t name, target ev = Some t ∧ tagName t = Some name
             ∧ (toLowerCase name = "input" ∨ toLowerCase name = "textarea"))
  ∨ metaKey ev = true ∨ altKey ev = true ∨ ctrlKey ev = true
  ∨ video st = None →
  shouldMapKey st ev = false
  ∧ keyListener type plugins toast st ev w
    = {| handlerCalls := []; eventCalls := []; worldAfter := w |}.
Proof.
  intros Hcase.
  assert (shouldMapKey st ev = false) as Hno.
  { unfold shouldMapKey, targetTagLower.
    destruct Hcase as [(t & name & Ht & Hn & Hlow) | [Hm | [Ha | [Hc | Hv]]]].
    - rewrite Ht, Hn. simpl. destruct Hlow as [-> | ->]; reflexivity.
    - rewrite Hm. simpl. by destruct (array_includes _ _).
    - rewrite Ha. destruct (array_includes _ _), (metaKey ev); done.
    - rewrite Hc. destruct (array_includes _ _), (metaKey ev), (altKey ev); done.
    - rewrite Hv. simpl.
      destruct (array_includes _ _), (metaKey ev || altKey ev || ctrlKey ev); done. }
  split; [exact Hno|]. unfold keyListener. by rewrite Hno.
Qed.

Lemma router_filter_blocks_dispatch_witness :
  keyListener keydown samplePlugins tt
    {| videoElements := [sampleVideo 0]; videoSelectedIndex := 0 |}
    (keyPress " " (Some "TEXTAREA")) 0
  = {| handlerCalls := []; eventCalls := []; worldAfter := 0 |}.
Proof.
  apply (router_filter_blocks_dispatch keydown samplePlugins tt
           {| videoElements := [sampleVideo 0]; videoSelectedIndex := 0 |}
           (keyPress " " (Some "TEXTAREA")) 0).
  left. exists {| tagName := Some "TEXTAREA" |}, "TEXTAREA".
  split; [reflexivity|]. split; [reflexivity|]. right. reflexivity.
Defined.

(** ** Selection state *)

Lemma truthy_lookup {A : Type} (l : list A) (i : nat) :
  truthy (l !! i) = (i <? length l).
Proof.
  destruct (l !! i) as [x|] eqn:Hl; simpl; symmetry.
  - apply Nat.ltb_lt. by eapply lookup_lt_Some.
  - apply Nat.ltb_ge. by apply lookup_ge_None.
Qed.

Lemma lookup_nth_error {A : Type} (l : list A) (i : nat) :
  l !! i = nth_error l i.
Proof. revert i. induction l as [|x l IH]; intros [|i]; simpl; auto. Qed.

(** The index after a discovery pass, by cases on the new list. *)
Lemma onVideoUpdate_index found st :
  videoSelectedIndex (onVideoUpdate found st)
    = if negb (length found =? 0) && (length found <=? videoSelectedIndex st)
      then 0 else videoSelectedIndex st.
Proof.
  unfold onVideoUpdate, video. simpl. rewrite truthy_lookup.
  destruct (length found =? 0); simpl; [done|].
  destruct (Nat.ltb_spec (videoSelectedIndex st) (length found)) as [Hlt|Hge];
    destruct (Nat.leb_spec (length found) (videoSelectedIndex st)); simpl;
    first [done | lia].
Qed.

Lemma onVideoUpdate_list found st :
  videoElements (onVideoUpdate found st) = found.
Proof. unfold onVideoUpdate. by destruct (_ && _). Qed.

(** The selection invariant: a non-empty list always has its index in range. *)
Lemma reachable_index_in_range st :
  reachable st → videoElements st ≠ [] →
  videoSelectedIndex st < length (videoElements st).
Proof.
  induction 1 as [|st st' Hreach IH Hstep]; [done|].
  destruct Hstep as [found st | i st Hi]; [|done].
  rewrite onVideoUpdate_list, onVideoUpdate_index. intros Hne.
  destruct (Nat.leb_spec (length found) (videoSelectedIndex st)) as [Hle|Hlt];
    destruct found as [|v found]; simpl in *; first [done | lia].
Qed.

(** C2 (as amended): every discovery completion replaces the video list, and
    sets the index to [0] exactly when the new list is non-empty and the index
    is out of range for it; in every other case the index is kept, also when
    the new list is empty.  So after the update a non-empty list always has an
    active video. *)
Theorem discovery_resets_index_when_out_of_range
    (found : list HTMLVideoElement) (st : AppState) :
  videoElements (onVideoUpdate found st) = found
  ∧ videoSelectedIndex (onVideoUpdate found st)
    = (if negb (length found =? 0) && (length found <=? videoSelectedIndex st)
       then 0 else videoSelectedIndex st)
  ∧ (found = [] ∨ videoSelectedIndex st < length found ↔
     videoSelectedIndex (onVideoUpdate found st) = videoSelectedIndex st
     ∧ onVideoUpdate found st
       = {| videoElements := found; videoSelectedIndex := videoSelectedIndex st |})
  ∧ (found ≠ [] → is_Some (video (onVideoUpdate found st))).
Proof.
  split; [apply onVideoUpdate_list|]. split; [apply onVideoUpdate_index|].
  split.
  - unfold onVideoUpdate, video. simpl. rewrite truthy_lookup.
    destruct found as [|v found]; simpl; [split; [done | by left]|].
    destruct (Nat.ltb_spec (videoSelectedIndex st) (S (length found))) as [Hlt|Hge];
      simpl.
    + split; [done | by right].
    + split; [intros [?|?]; [done | lia]|].
      intros [H0 Heq]. simpl in H0. right. lia.
  - intros Hne. unfold video.
    rewrite onVideoUpdate_list, onVideoUpdate_index.
    apply lookup_lt_is_Some.
    destruct (Nat.leb_spec (length found) (videoSelectedIndex st)) as [Hle|Hlt];
      destruct found as [|v found]; simpl in *; first [done | lia].
Qed.

(** C2 (as stated) fails both ways, at states the page reaches.  With three
    videos and the third selected, a rebuild that finds one video resets the
    index although the previous list was not empty; and after a rebuild that
    found nothing, a rebuild that finds three videos keeps the index [2]
    although the previous list was empty. *)
Lemma reset_on_first_discovery_counterexample :
  reachable {| videoElements := [sampleVideo 0; sampleVideo 1; sampleVideo 2];
               videoSelectedIndex := 2 |}
  ∧ videoSelectedIndex
      (onVideoUpdate [sampleVideo 0]
         {| videoElements := [sampleVideo 0; sampleVideo 1; sampleVideo 2];
            videoSelectedIndex := 2 |}) = 0
  ∧ ¬ ResetOnFirstDiscovery [sampleVideo 0]
        {| videoElements := [sampleVideo 0; sampleVideo 1; sampleVideo 2];
           videoSelectedIndex := 2 |}
  ∧ reachable {| videoElements := []; videoSelectedIndex := 2 |}
  ∧ videoSelectedIndex
      (onVideoUpdate [sampleVideo 3; sampleVideo 4; sampleVideo 5]
         {| videoElements := []; videoSelectedIndex := 2 |}) = 2
  ∧ ¬ ResetOnFirstDiscovery [sampleVideo 3; sampleVideo 4; sampleVideo 5]
        {| videoElements := []; videoSelectedIndex := 2 |}.
Proof.
  assert (reachable {| videoElements := [sampleVideo 0; sampleVideo 1; sampleVideo 2];
                       videoSelectedIndex := 2 |}) as Hthree.
  { apply (reachable_step
             (onVideoUpdate [sampleVideo 0; sampleVideo 1; sampleVideo 2] initialState)).
    - apply (reachable_step initialState); [apply reachable_init | apply step_discovery].
    - apply (step_pick 2). simpl. lia. }
  split; [exact Hthree|]. split; [reflexivity|]. split.
  { intros [_ Hidx]. vm_compute in Hidx. discriminate. }
  split.
  { apply (reachable_step _ _ Hthree (step_discovery [] _)). }
  split; [reflexivity|].
  intros [_ Hidx]. vm_compute in Hidx. discriminate.
Qed.

(** C8: in every state reached by discovery rebuilds and picker selections,
    the active video is the entry of the list at the selected index when the
    index is in range, and absent otherwise; it is absent only when the list
    is empty, and the router then drops every key event. *)
Theorem active_video_in_range_or_absent (st : AppState) :
  reachable st →
  (videoSelectedIndex st < length (videoElements st) →
     ∃ v, video st = Some v
          ∧ nth_error (videoElements st) (videoSelectedIndex st) = Some v
          ∧ v ∈ videoElements st)
  ∧ (length (videoElements st) ≤ videoSelectedIndex st → video st = None)
  ∧ (video st = None ↔ videoElements st = [])
  ∧ (video st = None → ∀ ev, shouldMapKey st ev = false).
Proof.
  intros Hreach.
  assert (video st = None → ∀ ev, shouldMapKey st ev = false) as Hdrop.
  { intros Hnone ev. unfold shouldMapKey. rewrite Hnone. simpl.
    by destruct (array_includes _ _), (metaKey ev || altKey ev || ctrlKey ev). }
  unfold video in *. split; [|split; [|split; [|exact Hdrop]]].
  - intros Hlt. destruct (lookup_lt_is_Some_2 _ _ Hlt) as [v Hv].
    exists v. split; [done|]. split.
    + by rewrite <- lookup_nth_error.
    + by eapply list_elem_of_lookup_2.
  - intros Hge. by apply lookup_ge_None.
  - split.
    + intros Hnone. destruct (decide (videoElements st = [])) as [|Hne]; [done|].
      pose proof (reachable_index_in_range st Hreach Hne) as Hlt.
      apply lookup_ge_None in Hnone. lia.
    + intros ->. done.
Qed.

Lemma active_video_in_range_or_absent_witness :
  video {| videoElements := [sampleVideo 0; sampleVideo 1]; videoSelectedIndex := 1 |}
    = None
  ↔ [sampleVideo 0; sampleVideo 1] = [].
Proof.
  apply (active_video_in_range_or_absent
           {| videoElements := [sampleVideo 0; sampleVideo 1]; videoSelectedIndex := 1 |}).
  apply (reachable_step (onVideoUpdate [sampleVideo 0; sampleVideo 1] initialState)).
  - apply (reachable_step initialState); [apply reachable_init | apply step_discovery].
  - apply (step_pick 1). simpl. lia.
Defined.

(** ** Video discovery *)

(** Induction over a frame tree: a property holds of every window when it
    holds of a window as soon as it holds of all its child frames. *)
Lemma Window_tree_ind (P : Window → Prop) :
  (∀ c d pos fs, Forall P fs → P (mkWindow c d pos fs)) → ∀ w, P w.
Proof.
  intros Hstep. fix IH 1. intros [c d pos fs]. apply Hstep.
  induction fs as [|f fs IHfs]; constructor; [apply IH | apply IHfs].
Qed.

(** The loop over the child frames, once each child's call is known: it
    throws as soon as one child's call throws, and otherwise appends the
    children's lists. *)
Lemma forEachFrame_spec (fs : list Window) :
  Forall (λ f, getAllValidVideoElements f
               = if raises f then Throw SecurityError else Normal (discover f)) fs →
  ∀ elements,
    (fix forEachFrame (fs : list Window) (elements : list HTMLVideoElement) :=
       match fs with
       | [] => Normal elements
       | f :: rest =>
           match getAllValidVideoElements f with
           | Throw e => Throw e
           | Normal found => forEachFrame rest (elements ++ found)
           end
       end) fs elements
    = if existsb raises fs then Throw SecurityError
      else Normal (elements ++ flat_map discover fs).
Proof.
  induction 1 as [|f fs Hf Hfs IH]; intros elements; simpl.
  - by rewrite app_nil_r.
  - rewrite Hf. destruct (raises f); simpl; [done|].
    rewrite IH. destruct (existsb raises fs); [done|]. by rewrite <- app_assoc.
Qed.

Lemma tryCatch_readFrameVideos (w : Window) :
  tryCatch (readFrameVideos w) (λ _, Normal []) = Normal (ownVideos w).
Proof.
  unfold readFrameVideos, readDocument, ownVideos.
  destruct (crossOrigin w); [done|]. by destruct (document w).
Qed.

(** What the source function does on every frame tree: it throws a
    [SecurityError] when the walk meets a cross-origin frame that has child
    frames, and returns the [discover] list otherwise. *)
Lemma getAllValidVideoElements_spec (w : Window) :
  getAllValidVideoElements w
  = if raises w then Throw SecurityError else Normal (discover w).
Proof.
  induction w as [c d pos fs Hfs] using Window_tree_ind.
  change (getAllValidVideoElements (mkWindow c d pos fs))
    with (match tryCatch (readFrameVideos (mkWindow c d pos fs)) (λ _, Normal []) with
          | Throw e => Throw e
          | Normal pushed =>
              if negb (length fs =? 0) then
                match readIterator (mkWindow c d pos fs) with
                | Throw e => Throw e
                | Normal _ =>
                    (fix forEachFrame (fs : list Window)
                         (elements : list HTMLVideoElement) :=
                       match fs with
                       | [] => Normal elements
                       | f :: rest =>
                           match getAllValidVideoElements f with
                           | Throw e => Throw e
                           | Normal found => forEachFrame rest (elements ++ found)
                           end
                       end) fs ([] ++ pushed)
                end
              else Normal ([] ++ pushed)
          end).
  rewrite tryCatch_readFrameVideos.
  change (discover (mkWindow c d pos fs))
    with (ownVideos (mkWindow c d pos fs) ++ flat_map discover fs).
  change (raises (mkWindow c d pos fs))
    with (negb (length fs =? 0) && (c || existsb raises fs)).
  destruct fs as [|f fs]; [simpl; by rewrite app_nil_r|].
  change (negb (length (f :: fs) =? 0)) with true. cbv iota.
  unfold readIterator. simpl crossOrigin. destruct c; [done|].
  rewrite (forEachFrame_spec (f :: fs) Hfs). by rewrite !orb_false_l.
Qed.

Lemma getAllValidVideoElements_Normal (w : Window) (found : list HTMLVideoElement) :
  getAllValidVideoElements w = Normal found ↔ raises w = false ∧ found = discover w.
Proof.
  rewrite getAllValidVideoElements_spec. destruct (raises w); split.
  - done.
  - by intros [? _].
  - by intros [= <-].
  - by intros [_ ->].
Qed.

Lemma discover_unfold (w : Window) :
  discover w = ownVideos w ++ flat_map discover (frames w).
Proof. by destruct w. Qed.

Lemma raises_unfold (w : Window) :
  raises w = negb (length (frames w) =? 0)
             && (crossOrigin w || existsb raises (frames w)).
Proof. by destruct w. Qed.

(** When a call returns, so did the call on every child frame. *)
Lemma raises_children (w : Window) :
  raises w = false → Forall (λ f, raises f = false) (frames w).
Proof.
  rewrite raises_unfold. destruct (frames w) as [|f fs]; [constructor|].
  change (negb (length (f :: fs) =? 0)) with true. rewrite andb_true_l.
  intros Hno. apply orb_false_iff in Hno as [_ Hno].
  apply Forall_forall. intros g Hg. apply not_true_is_false. intros Hr.
  assert (existsb raises (f :: fs) = true); [|congruence].
  apply existsb_exists. exists g. by rewrite <- list_elem_of_In.
Qed.

Lemma ownVideos_elem (w : Window) (v : HTMLVideoElement) :
  v ∈ ownVideos w ↔
  ∃ doc, crossOrigin w = false ∧ document w = Some doc
         ∧ v ∈ querySelectorAll_video doc ∧ src v ≠ EmptyString.
Proof.
  unfold ownVideos. destruct (crossOrigin w).
  - split; [intros Hin; by apply elem_of_nil in Hin | by intros (? & ? & _)].
  - destruct (document w) as [doc|].
    + rewrite list_elem_of_filter. split.
      * intros [Hsrc Hin]. by exists doc.
      * intros (doc' & _ & Heq & Hin & Hsrc). by simplify_eq.
    + split; [intros Hin; by apply elem_of_nil in Hin
             | by intros (? & _ & ? & _)].
Qed.

Lemma discover_elem (w : Window) (v : HTMLVideoElement) :
  v ∈ discover w ↔ videoIn w v ∧ src v ≠ EmptyString.
Proof.
  induction w as [c d pos fs Hfs] using Window_tree_ind.
  rewrite discover_unfold, elem_of_app, ownVideos_elem, list_elem_of_In, in_flat_map.
  simpl. split.
  - intros [(doc & Hc & Hd & Hin & Hsrc) | (f & Hf & Hv)].
    + split; [|done]. by eapply videoIn_here.
    + apply list_elem_of_In in Hf, Hv.
      rewrite Forall_forall in Hfs. apply (Hfs f Hf) in Hv as [Hv Hsrc].
      split; [|done]. by eapply videoIn_frame.
  - intros [Hin Hsrc]. inversion Hin as [w doc v' Hc Hd Hv | w f v' Hf Hv]; subst.
    + left. by exists doc.
    + right. exists f. simpl in Hf.
      rewrite Forall_forall in Hfs.
      split; apply list_elem_of_In; [done|]. by apply (Hfs f Hf).
Qed.

Example discovery_on_quiet_page :
  getAllValidVideoElements quietPage = Normal [sampleVideo 1; sampleVideo 7].
Proof. reflexivity. Qed.

(** C5 (the code breaks it): discovery does raise past the per-frame
    boundary.  The [try] block guards only the read of the document; on a
    page whose cross-origin child frame has a child frame of its own, the
    read of the document is caught and adds nothing, but enumerating the
    frames of the cross-origin frame throws a [SecurityError] that leaves the
    call on the frame, the call on the page and the update callback. *)
Theorem discovery_raises_below_foreign_frame :
  tryCatch (readFrameVideos foreignFrame) (λ _, Normal []) = Normal []
  ∧ getAllValidVideoElements foreignFrame = Throw SecurityError
  ∧ getAllValidVideoElements samplePageWindow = Throw SecurityError
  ∧ (∀ st, videoUpdateCallback samplePageWindow st = Throw SecurityError)
  ∧ getAllValidVideoElements foreignLeaf = Normal [].
Proof. repeat split; reflexivity. Qed.

(** C6 (as amended): whenever discovery returns, it returns the videos of the
    frame's own document that have a non-empty source, in document order,
    followed by what the calls on the child frames return, in the order of
    [frames] (the order of [window.frames]); a cross-origin frame adds no
    video of its own; an element is returned exactly when it is a video of
    some readable document of the tree and has a non-empty source. *)
Theorem discovery_order_and_content (w : Window) (found : list HTMLVideoElement) :
  getAllValidVideoElements w = Normal found →
  found = discover w
  ∧ found = ownVideos w ++ flat_map discover (frames w)
  ∧ Forall (λ f, getAllValidVideoElements f = Normal (discover f)) (frames w)
  ∧ (∀ doc, crossOrigin w = false → document w = Some doc →
       ownVideos w = filter (λ v, src v ≠ EmptyString) (querySelectorAll_video doc))
  ∧ (crossOrigin w = true → ownVideos w = [] ∧ found = [])
  ∧ Forall (λ v, src v ≠ EmptyString) found
  ∧ ∀ v, v ∈ found ↔ videoIn w v ∧ src v ≠ EmptyString.
Proof.
  intros Hret. apply getAllValidVideoElements_Normal in Hret as [Hquiet ->].
  split; [done|]. split; [apply discover_unfold|]. split; [|split; [|split; [|split]]].
  - eapply Forall_impl; [apply (raises_children w Hquiet)|].
    intros f Hf. by apply getAllValidVideoElements_Normal.
  - intros doc Hc Hd. unfold ownVideos. by rewrite Hc, Hd.
  - intros Hc. assert (ownVideos w = []) as Hown by (unfold ownVideos; by rewrite Hc).
    split; [done|]. rewrite discover_unfold, Hown.
    rewrite raises_unfold, Hc in Hquiet.
    destruct (frames w) as [|f fs]; [done|]. simpl in Hquiet. done.
  - apply Forall_forall. intros v Hv. by apply discover_elem in Hv as [_ ?].
  - intros v. apply discover_elem.
Qed.

Lemma discovery_order_and_content_witness :
  [sampleVideo 1; sampleVideo 7]
  = ownVideos quietPage ++ flat_map discover (frames quietPage).
Proof.
  apply (discovery_order_and_content quietPage [sampleVideo 1; sampleVideo 7]
           eq_refl).
Defined.

(** C6 (as stated) fails.  On a page whose second frame was inserted in front
    of the first, the call returns the first-inserted frame's video before
    the video of the frame that comes first in the document; and on a page
    with a cross-origin frame that has a child frame the call returns no list
    at all. *)
Lemma discovery_document_order_counterexample :
  getAllValidVideoElements reorderedPage
    = Normal [sampleVideo 1; sampleVideo 8; sampleVideo 9]
  ∧ inDocumentOrder (frames reorderedPage)
    = [sameOriginFrame 0 (sampleVideo 9); sameOriginFrame 1 (sampleVideo 8)]
  ∧ ¬ DiscoveryInDocumentOrder reorderedPage
  ∧ ¬ DiscoveryInDocumentOrder samplePageWindow.
Proof.
  split; [reflexivity|]. split; [reflexivity|]. split.
  - intros (found & results & Hfound & Hres & Heq).
    change (getAllValidVideoElements reorderedPage)
      with (Normal (A:=list HTMLVideoElement)
              [sampleVideo 1; sampleVideo 8; sampleVideo 9]) in Hfound.
    injection Hfound as <-.
    change (inDocumentOrder (frames reorderedPage))
      with [sameOriginFrame 0 (sampleVideo 9); sameOriginFrame 1 (sampleVideo 8)]
      in Hres.
    inversion Hres as [|f1 r1 fs1 rs1 H1 Hrest]; subst.
    inversion Hrest as [|f2 r2 fs2 rs2 H2 Hnil]; subst.
    inversion Hnil; subst.
    change (getAllValidVideoElements (sameOriginFrame 0 (sampleVideo 9)))
      with (Normal (A:=list HTMLVideoElement) [sampleVideo 9]) in H1.
    change (getAllValidVideoElements (sameOriginFrame 1 (sampleVideo 8)))
      with (Normal (A:=list HTMLVideoElement) [sampleVideo 8]) in H2.
    injection H1 as <-. injection H2 as <-.
    vm_compute in Heq. discriminate.
  - intros (found & results & Hfound & _).
    change (getAllValidVideoElements samplePageWindow)
      with (Throw (A:=list HTMLVideoElement) SecurityError) in Hfound.
    discriminate.
Qed.

(** ** Mutation watcher *)

Lemma Node_tree_ind (P : Node → Prop) :
  (∀ t name cls cs, Forall P cs → P (mkNode t name cls cs)) → ∀ n, P n.
Proof.
  intros Hstep. fix IH 1. intros [t name cls cs]. apply Hstep.
  induction cs as [|c cs IHcs]; constructor; [apply IH | apply IHcs].
Qed.

Lemma querySelector_iframe_unfold (n : Node) :
  querySelector_iframe n
  = (fix firstIn (cs : list Node) : option Node :=
       match cs with
       | [] => None
       | c :: rest =>
           if isIframe c then Some c
           else match querySelector_iframe c with
                | Some found => Some found
                | None => firstIn rest
                end
       end) (childNodes n).
Proof. by destruct n. Qed.

(** A miss means that no child is an [iframe] and the search misses below
    every child. *)
Lemma querySelector_iframe_None_children (n : Node) :
  querySelector_iframe n = None →
  Forall (λ c, isIframe c = false ∧ querySelector_iframe c = None) (childNodes n).
Proof.
  rewrite querySelector_iframe_unfold.
  induction (childNodes n) as [|c cs IH]; [constructor|].
  destruct (isIframe c) eqn:Hc; [done|].
  destruct (querySelector_iframe c) eqn:Hq; [done|].
  intros Hrest. constructor; [done | by apply IH].
Qed.

Lemma querySelector_iframe_None (n d : Node) :
  querySelector_iframe n = None → descendant n d → isIframe d = false.
Proof.
  intros Hnone Hd. induction Hd as [n c Hc | n c d Hc Hd IH].
  - apply querySelector_iframe_None_children in Hnone.
    rewrite Forall_forall in Hnone. by apply Hnone.
  - apply IH. apply querySelector_iframe_None_children in Hnone.
    rewrite Forall_forall in Hnone. by apply Hnone.
Qed.

(** A hit is an [iframe] element strictly below the node. *)
Lemma querySelector_iframe_Some (n d : Node) :
  querySelector_iframe n = Some d → descendant n d ∧ isIframe d = true.
Proof.
  revert d. induction n as [t name cls cs Hcs] using Node_tree_ind. intros d.
  rewrite querySelector_iframe_unfold. simpl.
  assert (∀ c, c ∈ cs → descendant (mkNode t name cls cs) c) as Hchild.
  { intros c Hc. by apply descendant_child. }
  assert (∀ c e, c ∈ cs → descendant c e → descendant (mkNode t name cls cs) e)
    as Hdeep.
  { intros c e Hc He. by eapply descendant_deeper. }
  revert Hchild Hdeep. generalize (mkNode t name cls cs). intros n.
  induction Hcs as [|c cs Hc Hcs IH]; intros Hchild Hdeep; [done|].
  destruct (isIframe c) eqn:Hi.
  - intros [= <-]. split; [|done]. apply Hchild. left.
  - destruct (querySelector_iframe c) as [found|] eqn:Hq.
    + intros [= <-]. destruct (Hc found eq_refl) as [Hd Hf].
      split; [|done]. eapply Hdeep; [left | done].
    + intros Hrest. apply IH; [| |done].
      * intros c' Hc'. apply Hchild. by right.
      * intros c' e Hc' He. eapply Hdeep; [by right | done].
Qed.

Lemma querySelector_iframe_truthy (n : Node) :
  truthy (querySelector_iframe n) = true ↔ ∃ d, descendant n d ∧ isIframe d = true.
Proof.
  split.
  - destruct (querySelector_iframe n) as [d|] eqn:Hq; [|done].
    intros _. exists d. by apply querySelector_iframe_Some.
  - intros (d & Hd & Hi).
    destruct (querySelector_iframe n) as [d'|] eqn:Hq; [done|].
    pose proof (querySelector_iframe_None n d Hq Hd). congruence.
Qed.

(** The predicate, read off its four tests. *)
Lemma mayContainsVideoElement_true (node : Node) :
  mayContainsVideoElement node = true ↔
  nodeType node = ELEMENT_NODE
  ∧ (nodeName node = "VIDEO"
     ∨ mentionsVideo (className node)
     ∨ ∃ d, descendant node d ∧ isIframe d = true).
Proof.
  rewrite <- querySelector_iframe_truthy, <- regex_video_i_test_spec.
  unfold mayContainsVideoElement.
  destruct (Nat.eqb_spec (nodeType node) ELEMENT_NODE) as [Ht|Ht]; simpl;
    [|split; [done | by intros [? _]]].
  destruct (String.eqb_spec (nodeName node) "VIDEO") as [Hn|Hn];
    [split; auto|].
  destruct (regex_video_i_test (className node)); [split; auto|].
  destruct (truthy (querySelector_iframe node)); [split; auto|].
  split; [done|]. intros [_ [?|[?|?]]]; done.
Qed.

Lemma timers_of_nodes (delay d : nat) (nodes : list Node) :
  timersWithDelay delay
    (flat_map (λ node, if negb (mayContainsVideoElement node) then []
                       else [setTimeout d]) nodes)
  = if decide (d = delay) then plausibleCount nodes else 0.
Proof.
  unfold timersWithDelay, plausibleCount.
  induction nodes as [|n nodes IH]; simpl; [by case_decide|].
  rewrite filter_app, length_app, IH.
  destruct (mayContainsVideoElement n) eqn:Hn; simpl.
  - case_decide as Hd.
    + subst. rewrite !filter_cons_True by done. rewrite filter_nil. simpl. lia.
    + rewrite filter_cons_False by congruence. rewrite filter_nil. simpl. lia.
  - rewrite (filter_cons_False _ n nodes) by congruence.
    by case_decide.
Qed.

Lemma timers_of_batch (delay : nat) (mutations : list MutationRecord) :
  timersWithDelay delay (observerCallback mutations)
  = sum_list (map (λ m,
      (if decide (1000 = delay) then plausibleCount (addedNodes m) else 0)
      + (if decide (0 = delay) then plausibleCount (removedNodes m) else 0))
      mutations).
Proof.
  unfold observerCallback.
  induction mutations as [|m ms IH]; simpl; [done|].
  unfold timersWithDelay in *. rewrite !filter_app, !length_app, IH.
  pose proof (timers_of_nodes delay 1000 (addedNodes m)) as Ha.
  pose proof (timers_of_nodes delay 0 (removedNodes m)) as Hr.
  unfold timersWithDelay in Ha, Hr. rewrite Ha, Hr. lia.
Qed.

(** C7: for a mutation batch the watcher asks for one timer of 1000 ms per
    added node that satisfies the predicate and one timer of 0 ms per removed
    node that satisfies it, and for nothing else; the predicate holds of an
    element that is a [VIDEO], or whose class name mentions [video] in any
    letter case, or that has an [iframe] below it.  At start-up it asks for one timer of 0 ms and
    registers the update as the [hashchange] listener; each [hashchange], like
    each expired timer, runs discovery once, followed by the selection update
    when discovery returns. *)
Theorem watcher_schedules_rediscovery (mutations : list MutationRecord) :
  timersWithDelay 1000 (observerCallback mutations)
    = sum_list (map (λ m, plausibleCount (addedNodes m)) mutations)
  ∧ timersWithDelay 0 (observerCallback mutations)
    = sum_list (map (λ m, plausibleCount (removedNodes m)) mutations)
  ∧ length (observerCallback mutations)
    = timersWithDelay 1000 (observerCallback mutations)
      + timersWithDelay 0 (observerCallback mutations)
  ∧ (∀ node, mayContainsVideoElement node = true ↔
       nodeType node = ELEMENT_NODE
       ∧ (nodeName node = "VIDEO"
          ∨ mentionsVideo (className node)
          ∨ ∃ d, descendant node d ∧ isIframe d = true))
  ∧ timersWithDelay 0 listenVideoUpdate = 1
  ∧ length (filter (λ h, isTimer h = true) listenVideoUpdate) = 1
  ∧ length (filter (λ h, h = addHashChangeListener) listenVideoUpdate) = 1
  ∧ ∀ window st,
      onHostEvent window timerFired st = onHostEvent window hashchange st
      ∧ (∀ found, getAllValidVideoElements window = Normal found →
           onHostEvent window hashchange st
           = Normal ([], onVideoUpdate found st))
      ∧ (∀ e, getAllValidVideoElements window = Throw e →
           onHostEvent window hashchange st = Throw e).
Proof.
  split; [|split; [|split; [|split; [|split; [|split; [|split]]]]]].
  - rewrite timers_of_batch.
    f_equal; try (apply map_ext; intros m; repeat case_decide; first [lia | done]).
  - rewrite timers_of_batch.
    f_equal; try (apply map_ext; intros m; repeat case_decide; first [lia | done]).
  - unfold observerCallback, timersWithDelay.
    induction mutations as [|m ms IH]; simpl; [done|].
    rewrite !filter_app, !length_app, IH.
    assert (∀ d nodes,
      length (flat_map (λ node, if negb (mayContainsVideoElement node) then []
                                else [setTimeout d]) nodes)
      = plausibleCount nodes) as Hlen.
    { intros d nodes. unfold plausibleCount.
      induction nodes as [|n nodes IHn]; simpl; [done|].
      rewrite length_app, IHn. destruct (mayContainsVideoElement n) eqn:Hn; simpl.
      - by rewrite filter_cons_True.
      - by rewrite filter_cons_False by congruence. }
    rewrite !Hlen.
    pose proof (timers_of_nodes 1000 1000 (addedNodes m)) as H1.
    pose proof (timers_of_nodes 0 1000 (addedNodes m)) as H2.
    pose proof (timers_of_nodes 1000 0 (removedNodes m)) as H3.
    pose proof (timers_of_nodes 0 0 (removedNodes m)) as H4.
    unfold timersWithDelay in H1, H2, H3, H4. rewrite H1, H2, H3, H4.
    repeat case_decide; first [lia | done].
  - apply mayContainsVideoElement_true.
  - reflexivity.
  - reflexivity.
  - reflexivity.
  - intros window st. unfold onHostEvent, videoUpdateCallback.
    split; [done|]. split; [by intros found -> | by intros e ->].
Qed.

(** C10: the predicate is false of every node that is not an element, and of
    every element that is not a [VIDEO], whose class name does not mention
    [video] in any letter case and that has no [iframe] below it, whatever
    else its subtree holds; adding such a node schedules nothing. *)
Theorem wrapper_without_marker_is_ignored (node : Node) :
  nodeType node ≠ ELEMENT_NODE
  ∨ (nodeName node ≠ "VIDEO"
     ∧ ¬ mentionsVideo (className node)
     ∧ ∀ d, descendant node d → isIframe d = false) →
  mayContainsVideoElement node = false
  ∧ observerCallback [{| addedNodes := [node]; removedNodes := [] |}] = [].
Proof.
  intros Hcase.
  assert (mayContainsVideoElement node = false) as Hno.
  { apply not_true_is_false. rewrite mayContainsVideoElement_true.
    intros [Ht Hwhy]. destruct Hcase as [Hne | (Hname & Hcls & Hframe)]; [done|].
    destruct Hwhy as [Hv | [Hc | (d & Hd & Hi)]]; [done | done |].
    rewrite (Hframe d Hd) in Hi. done. }
  split; [exact Hno|]. unfold observerCallback. simpl. by rewrite Hno.
Qed.

(** A wrapper [div] around a [video] element: the video in its subtree does
    not make the predicate true. *)
Lemma wrapper_without_marker_is_ignored_witness :
  descendant wrapperNode videoNode
  ∧ mayContainsVideoElement videoNode = true
  ∧ mayContainsVideoElement wrapperNode = false
  ∧ observerCallback [{| addedNodes := [wrapperNode]; removedNodes := [] |}] = [].
Proof.
  split; [apply descendant_child; left|]. split; [reflexivity|].
  apply (wrapper_without_marker_is_ignored wrapperNode).
  right. split; [discriminate|]. split.
  { rewrite <- regex_video_i_test_spec. discriminate. }
  intros d Hd. apply (querySelector_iframe_None wrapperNode d); [reflexivity | exact Hd].
Defined.

(** ** Picker: outline bookkeeping *)

Lemma childrenOf_insert (dom : gmap nat (list Node)) (p q : nat) (cs : list Node) :
  childrenOf (<[p := cs]> dom) q = if decide (p = q) then cs else childrenOf dom q.
Proof.
  unfold childrenOf. rewrite lookup_insert. by case_decide.
Qed.

(** The test both handlers make, in terms of the parent's child list. *)
Lemma isOutlineClass_first (dom : gmap nat (list Node)) (v : HTMLVideoElement) :
  isOutlineClass (firstSiblingClass dom v) = true ↔
  ∃ p c, parentElement v = Some p
         ∧ firstElementChild (childrenOf dom p) = Some c
         ∧ className c = outlineClass.
Proof.
  unfold isOutlineClass, firstSiblingClass.
  destruct (parentElement v) as [p|]; [|split; [done | by intros (? & ? & ? & _)]].
  destruct (firstElementChild (childrenOf dom p)) as [c|] eqn:Hfirst.
  - rewrite String.eqb_eq. split.
    + intros Hc. by exists p, c.
    + intros (p' & c' & Hp & Hc & Hcls). by simplify_eq.
  - split; [done|]. intros (p' & c' & Hp & Hc & _). simplify_eq.
Qed.

Lemma firstElementChild_element (cs : list Node) (c : Node) :
  firstElementChild cs = Some c → c ∈ cs ∧ nodeType c = ELEMENT_NODE.
Proof.
  unfold firstElementChild. induction cs as [|x cs IH]; simpl; [done|].
  destruct (Nat.eqb_spec (nodeType x) ELEMENT_NODE) as [Hx|Hx].
  - intros [= <-]. split; [left | done].
  - intros Hc. destruct (IH Hc) as [Hin Ht]. split; [by right | done].
Qed.

(** When the test succeeds, an outline is among the parent's children. *)
Lemma isOutlineClass_hasOutline (dom : gmap nat (list Node))
    (v : HTMLVideoElement) (p : nat) :
  parentElement v = Some p →
  isOutlineClass (firstSiblingClass dom v) = true → hasOutline dom p = true.
Proof.
  intros Hp Hfirst. apply isOutlineClass_first in Hfirst as (p' & c & Hp' & Hc & Hcls).
  assert (p' = p) as -> by congruence.
  apply firstElementChild_element in Hc as [Hin Ht].
  unfold hasOutline. apply existsb_exists. exists c.
  split; [by apply list_elem_of_In|].
  unfold isOutline. rewrite Ht, Hcls. reflexivity.
Qed.

(** Inserting twice is inserting once, on any DOM. *)
Lemma selectVideo_idempotent (i : nat) (st : AppState)
    (dom dom1 : gmap nat (list Node)) :
  selectVideo i st dom = Normal dom1 → selectVideo i st dom1 = Normal dom1.
Proof.
  unfold selectVideo. destruct (videoElements st !! i) as [v|]; [|done].
  destruct (isOutlineClass (firstSiblingClass dom v)) eqn:Hfirst.
  - intros [= <-]. by rewrite Hfirst.
  - destruct (parentElement v) as [p|] eqn:Hp; intros [= <-].
    + replace (isOutlineClass (firstSiblingClass
                 (<[p := outlineDiv :: childrenOf dom p]> dom) v)) with true; [done|].
      symmetry. apply isOutlineClass_first. exists p, outlineDiv.
      split; [done|]. split; [|done].
      rewrite childrenOf_insert. by case_decide.
    + by rewrite Hfirst.
Qed.

(** Removing where no outline exists changes nothing, on any DOM. *)
Lemma unselectVideo_absent (i : nat) (st : AppState)
    (dom : gmap nat (list Node)) (v : HTMLVideoElement) :
  videoElements st !! i = Some v →
  (∀ p, parentElement v = Some p → hasOutline dom p = false) →
  unselectVideo i st dom = Normal dom.
Proof.
  intros Hv Hnone. unfold unselectVideo. rewrite Hv.
  destruct (isOutlineClass (firstSiblingClass dom v)) eqn:Hfirst; [|done].
  destruct (parentElement v) as [p|] eqn:Hp; [|done].
  pose proof (isOutlineClass_hasOutline dom v p Hp Hfirst) as Hhas.
  rewrite (Hnone p eq_refl) in Hhas. done.
Qed.

Lemma first_not_outline (dom0 dom : gmap nat (list Node))
    (v : HTMLVideoElement) (p : nat) :
  hasOutline dom0 p = false →
  parentElement v = Some p →
  childrenOf dom p = childrenOf dom0 p →
  isOutlineClass (firstSiblingClass dom v) = false.
Proof.
  intros Hnone Hp Hsame. apply not_true_is_false. intros Hfirst.
  apply (isOutlineClass_hasOutline dom v p Hp) in Hfirst.
  unfold hasOutline in *. rewrite Hsame in Hfirst. congruence.
Qed.

Lemma first_is_outline (dom0 dom : gmap nat (list Node))
    (v : HTMLVideoElement) (p : nat) :
  parentElement v = Some p →
  childrenOf dom p = outlineDiv :: childrenOf dom0 p →
  isOutlineClass (firstSiblingClass dom v) = true.
Proof.
  intros Hp Hfront. apply isOutlineClass_first. exists p, outlineDiv.
  split; [done|]. split; [|done]. by rewrite Hfront.
Qed.

Lemma pickerStep_invariant (st : AppState) (dom0 dom dom' : gmap nat (list Node)) :
  (∀ q, hasOutline dom0 q = false) →
  outlineInvariant dom0 dom → pickerStep st dom dom' → outlineInvariant dom0 dom'.
Proof.
  intros Hclean Hinv Hstep.
  destruct Hstep as [i dom dom' Hsel | i dom dom' Hun].
  - unfold selectVideo in Hsel.
    destruct (videoElements st !! i) as [v|]; [|done].
    destruct (isOutlineClass (firstSiblingClass dom v)) eqn:Hfirst;
      [by simplify_eq|].
    destruct (parentElement v) as [p|] eqn:Hp; [|by simplify_eq].
    injection Hsel as <-. intros q. rewrite childrenOf_insert.
    case_decide as Hq; [subst q|apply Hinv].
    destruct (Hinv p) as [Hsame | Hfront].
    + right. by rewrite Hsame.
    + rewrite (first_is_outline dom0 dom v p Hp Hfront) in Hfirst. done.
  - unfold unselectVideo in Hun.
    destruct (videoElements st !! i) as [v|]; [|done].
    destruct (isOutlineClass (firstSiblingClass dom v)) eqn:Hfirst;
      simpl in Hun; [|by simplify_eq].
    destruct (parentElement v) as [p|] eqn:Hp; [|by simplify_eq]. injection Hun as <-. intros q. rewrite childrenOf_insert.
    case_decide as Hq; [subst q|apply Hinv].
    destruct (Hinv p) as [Hsame | Hfront].
    + rewrite (first_not_outline dom0 dom v p (Hclean p) Hp Hsame) in Hfirst. done.
    + left. by rewrite Hfront.
Qed.

Lemma pickerReach_invariant (st : AppState) (dom0 dom : gmap nat (list Node)) :
  (∀ q, hasOutline dom0 q = false) →
  pickerReach st dom0 dom → outlineInvariant dom0 dom.
Proof.
  intros Hclean Hreach. induction Hreach as [|dom dom' Hreach IH Hstep].
  - intros q. by left.
  - by eapply pickerStep_invariant.
Qed.

Lemma outlineCount_absent (dom : gmap nat (list Node)) (p : nat) :
  hasOutline dom p = false → outlineCount dom p = 0.
Proof.
  unfold hasOutline, outlineCount.
  induction (childrenOf dom p) as [|c cs IH]; simpl; [done|].
  intros Hno. apply orb_false_iff in Hno as [Hc Hcs].
  rewrite filter_cons_False by congruence. by apply IH.
Qed.

Lemma samplePage_clean (q : nat) : hasOutline samplePage q = false.
Proof.
  unfold hasOutline, childrenOf, samplePage.
  destruct (decide (q = 0)) as [->|Hq].
  - by rewrite lookup_singleton_eq.
  - by rewrite lookup_singleton_ne.
Qed.

(** On a page that starts without outlines, whatever the picker's two
    handlers did before: inserting an outline for a video whose parent already
    holds one leaves the DOM unchanged, removing one where none exists leaves
    it unchanged, a second insertion or a second removal changes nothing, and
    no parent ever holds more than one outline. *)
Lemma picker_outline_at_most_one (st : AppState)
    (dom0 dom : gmap nat (list Node)) (i : nat) (v : HTMLVideoElement) (p : nat) :
  (∀ q, hasOutline dom0 q = false) →
  pickerReach st dom0 dom →
  videoElements st !! i = Some v →
  parentElement v = Some p →
  (hasOutline dom p = true → selectVideo i st dom = Normal dom)
  ∧ (hasOutline dom p = false → unselectVideo i st dom = Normal dom)
  ∧ (∃ dom1, selectVideo i st dom = Normal dom1
       ∧ selectVideo i st dom1 = Normal dom1
       ∧ hasOutline dom1 p = true ∧ outlineCount dom1 p = 1)
  ∧ (∃ dom1, unselectVideo i st dom = Normal dom1
       ∧ unselectVideo i st dom1 = Normal dom1
       ∧ hasOutline dom1 p = false)
  ∧ outlineCount dom p ≤ 1.
Proof.
  intros Hclean Hreach Hv Hp.
  pose proof (pickerReach_invariant st dom0 dom Hclean Hreach) as Hinv.
  assert (∀ d, outlineInvariant dom0 d →
            (hasOutline d p = false ∧ childrenOf d p = childrenOf dom0 p)
            ∨ (hasOutline d p = true ∧ outlineCount d p = 1
               ∧ childrenOf d p = outlineDiv :: childrenOf dom0 p)) as Hshape.
  { intros d Hd. destruct (Hd p) as [Hsame | Hfront].
    - left. split; [|done]. unfold hasOutline. rewrite Hsame. apply Hclean.
    - right. unfold hasOutline, outlineCount. rewrite Hfront. split; [done|].
      split; [|done]. rewrite filter_cons_True by done. simpl. f_equal.
      apply (outlineCount_absent dom0 p (Hclean p)). }
  assert (∀ d, outlineInvariant dom0 d → hasOutline d p = true →
            selectVideo i st d = Normal d) as Hsel.
  { intros d Hd Hhas. destruct (Hshape d Hd) as [[Hno _] | (_ & _ & Hfront)];
      [congruence|].
    unfold selectVideo. rewrite Hv.
    by rewrite (first_is_outline dom0 d v p Hp Hfront). }
  assert (∀ d, hasOutline d p = false → unselectVideo i st d = Normal d) as Hun.
  { intros d Hno. apply (unselectVideo_absent i st d v Hv).
    intros p' Hp'. by simplify_eq. }
  split; [by apply Hsel|]. split; [by apply Hun|]. split; [|split].
  - destruct (selectVideo i st dom) as [dom1|e] eqn:Hfirst.
    2:{ unfold selectVideo in Hfirst. rewrite Hv, Hp in Hfirst.
        by destruct (isOutlineClass _). }
    exists dom1. split; [done|].
    split; [by apply (selectVideo_idempotent i st dom)|].
    assert (outlineInvariant dom0 dom1) as Hinv1.
    { apply (pickerStep_invariant st dom0 dom dom1 Hclean Hinv).
      by apply (picker_enter st i). }
    destruct (Hshape dom1 Hinv1) as [[_ Hsame] | (Hhas & Hcount & _)]; [|done].
    exfalso. unfold selectVideo in Hfirst. rewrite Hv, Hp in Hfirst.
    destruct (isOutlineClass (firstSiblingClass dom v)) eqn:Hcls.
    + injection Hfirst as <-.
      pose proof (first_not_outline dom0 dom v p (Hclean p) Hp Hsame). congruence.
    + injection Hfirst as <-. rewrite childrenOf_insert in Hsame.
      case_decide; [|done].
      destruct (Hinv p) as [Heq | Heq]; rewrite Heq in Hsame.
      * apply (f_equal length) in Hsame. simpl in Hsame. lia.
      * apply (f_equal length) in Hsame. simpl in Hsame. lia.
  - destruct (unselectVideo i st dom) as [dom1|e] eqn:Hfirst.
    2:{ unfold unselectVideo in Hfirst. rewrite Hv, Hp in Hfirst.
        by destruct (isOutlineClass _). }
    exists dom1. split; [done|].
    assert (hasOutline dom1 p = false) as Hno.
    { unfold unselectVideo in Hfirst. rewrite Hv, Hp in Hfirst.
      destruct (isOutlineClass (firstSiblingClass dom v)) eqn:Hcls;
        simpl in Hfirst; injection Hfirst as <-.
      - destruct (Hshape dom Hinv) as [[_ Hsame] | (_ & _ & Hfront)].
        + pose proof (first_not_outline dom0 dom v p (Hclean p) Hp Hsame).
          congruence.
        + unfold hasOutline. rewrite childrenOf_insert.
          case_decide; [|done]. rewrite Hfront. simpl. apply Hclean.
      - destruct (Hshape dom Hinv) as [[Hno _] | (_ & _ & Hfront)]; [done|].
        pose proof (first_is_outline dom0 dom v p Hp Hfront). congruence. }
    split; [by apply Hun | done].
  - destruct (Hshape dom Hinv) as [[Hno _] | (_ & Hcount & _)]; [|lia].
    rewrite (outlineCount_absent dom p Hno). lia.
Qed.

(** C9: the outline bookkeeping is idempotent.  On any DOM, inserting an
    outline twice gives the DOM of inserting it once, inserting where the
    parent's first element child is an outline changes nothing, and removing
    where no child of the parent is an outline changes nothing.  On a page that
    starts without outlines and is edited by the picker's handlers only,
    inserting where the parent holds an outline anywhere changes nothing, a
    second removal changes nothing, and no parent ever holds two outlines. *)
Theorem outline_bookkeeping_idempotent (st : AppState)
    (dom : gmap nat (list Node)) (i : nat) (v : HTMLVideoElement) :
  videoElements st !! i = Some v →
  (∃ dom1, selectVideo i st dom = Normal dom1
           ∧ selectVideo i st dom1 = Normal dom1)
  ∧ (isOutlineClass (firstSiblingClass dom v) = true →
     selectVideo i st dom = Normal dom)
  ∧ ((∀ p, parentElement v = Some p → hasOutline dom p = false) →
     unselectVideo i st dom = Normal dom)
  ∧ (parentElement v = None →
     selectVideo i st dom = Normal dom ∧ unselectVideo i st dom = Normal dom)
  ∧ (∀ dom0 p,
       (∀ q, hasOutline dom0 q = false) →
       pickerReach st dom0 dom →
       parentElement v = Some p →
       (hasOutline dom p = true → selectVideo i st dom = Normal dom)
       ∧ (∃ dom1, unselectVideo i st dom = Normal dom1
                  ∧ unselectVideo i st dom1 = Normal dom1
                  ∧ hasOutline dom1 p = false)
       ∧ (∃ dom1, selectVideo i st dom = Normal dom1
                  ∧ hasOutline dom1 p = true ∧ outlineCount dom1 p = 1)
       ∧ outlineCount dom p ≤ 1).
Proof.
  intros Hv. split; [|split; [|split; [|split]]].
  - destruct (selectVideo i st dom) as [dom1|e] eqn:Hsel.
    + exists dom1. split; [done|]. by apply (selectVideo_idempotent i st dom).
    + unfold selectVideo in Hsel. rewrite Hv in Hsel.
      by destruct (isOutlineClass _), (parentElement v).
  - intros Hfirst. unfold selectVideo. by rewrite Hv, Hfirst.
  - by apply unselectVideo_absent.
  - intros Hnone. unfold selectVideo, unselectVideo, firstSiblingClass.
    by rewrite Hv, Hnone.
  - intros dom0 p Hclean Hreach Hp.
    destruct (picker_outline_at_most_one st dom0 dom i v p Hclean Hreach Hv Hp)
      as (Hsel & _ & (d1 & Hs1 & _ & Hhas1 & Hcount1) & Hun & Hcount).
    split; [done|]. split; [done|]. split; [|done].
    exists d1. done.
Qed.

(** On the sample page: entering the entry once inserts the outline in front
    of the parent's children, and entering it again returns the same DOM. *)
Lemma outline_bookkeeping_idempotent_witness :
  selectVideo 0 samplePicker samplePage
    = Normal {[ 0 := [outlineDiv; textNode; videoNode] ]}
  ∧ (∃ dom1, selectVideo 0 samplePicker samplePage = Normal dom1
             ∧ selectVideo 0 samplePicker dom1 = Normal dom1)
  ∧ unselectVideo 0 samplePicker samplePage = Normal samplePage.
Proof.
  split.
  { unfold selectVideo, samplePicker, samplePage, firstSiblingClass, childrenOf.
    simpl. rewrite lookup_singleton_eq. simpl. by rewrite insert_singleton_eq. }
  destruct (outline_bookkeeping_idempotent samplePicker samplePage 0
              (sampleVideo 0) eq_refl) as (Htwice & _ & Habsent & _).
  split; [exact Htwice|].
  apply Habsent. intros p _. apply samplePage_clean.
Defined.

(** * Further properties *)

(** ** Selection state across rebuilds *)

Lemma onVideoUpdate_record found st :
  onVideoUpdate found st
  = {| videoElements := found;
       videoSelectedIndex :=
         if negb (length found =? 0) && (length found <=? videoSelectedIndex st)
         then 0 else videoSelectedIndex st |}.
Proof.
  pose proof (onVideoUpdate_index found st) as Hi.
  pose proof (onVideoUpdate_list found st) as Hl.
  destruct (onVideoUpdate found st) as [l i]. simpl in Hi, Hl. by subst.
Qed.

(** The active video after a rebuild, in closed form. *)
Lemma onVideoUpdate_video found st :
  video (onVideoUpdate found st)
  = match found !! videoSelectedIndex st with
    | Some v => Some v
    | None => head found
    end.
Proof.
  rewrite onVideoUpdate_record. unfold video. simpl.
  destruct (found !! videoSelectedIndex st) as [v|] eqn:Hv.
  - apply lookup_lt_Some in Hv as Hlt.
    replace (length found <=? videoSelectedIndex st) with false
      by (symmetry; apply Nat.leb_gt; lia).
    by rewrite andb_false_r.
  - apply lookup_ge_None in Hv as Hge.
    replace (length found <=? videoSelectedIndex st) with true
      by (symmetry; apply Nat.leb_le; lia).
    destruct found as [|x found]; simpl; [by apply lookup_ge_None|done].
Qed.

Lemma discover_nil (w : Window) :
  discover w = [] ↔ ∀ v, videoIn w v → src v = EmptyString.
Proof.
  split.
  - intros Hnil v Hin. destruct (decide (src v = EmptyString)) as [|Hsrc]; [done|].
    assert (v ∈ discover w) as Hv by (by apply discover_elem).
    rewrite Hnil in Hv. by apply elem_of_nil in Hv.
  - intros Hall. apply elem_of_nil_inv. intros v Hv.
    apply discover_elem in Hv as [Hin Hsrc]. by apply Hsrc, Hall.
Qed.

(** X1: after a rebuild the active video is the entry of the new list at the
    old index when there is one, and the first entry of the new list
    otherwise; it is absent only when the new list is empty.  The old list
    plays no part. *)
Theorem active_video_after_rebuild (found : list HTMLVideoElement)
    (st : AppState) :
  video (onVideoUpdate found st)
    = match found !! videoSelectedIndex st with
      | Some v => Some v
      | None => head found
      end
  ∧ (video (onVideoUpdate found st) = None ↔ found = [])
  ∧ (∀ v, video (onVideoUpdate found st) = Some v → v ∈ found)
  ∧ (∀ old, onVideoUpdate found
              {| videoElements := old; videoSelectedIndex := videoSelectedIndex st |}
            = onVideoUpdate found st).
Proof.
  split; [apply onVideoUpdate_video|]. rewrite onVideoUpdate_video.
  split; [|split].
  - destruct (found !! videoSelectedIndex st) as [v|] eqn:Hv.
    + split; [done|]. intros ->. by rewrite lookup_nil in Hv.
    + destruct found; split; done.
  - intros v. destruct (found !! videoSelectedIndex st) as [x|] eqn:Hx.
    + intros [= <-]. by eapply list_elem_of_lookup_2.
    + destruct found as [|x found]; [done|]. intros [= <-]. left.
  - intros old. by rewrite !onVideoUpdate_record.
Qed.

(** X2: a rebuild that finds the same list again changes nothing, however
    often it runs; so when the discovery callback returns on a frame tree,
    running it again on the unchanged tree leaves the state of the first run,
    and when it throws it throws again and never assigns anything. *)
Theorem rediscovery_is_idempotent (window : Window) (st : AppState) :
  (∀ found n, Nat.iter (S n) (onVideoUpdate found) st = onVideoUpdate found st)
  ∧ (∀ st1, videoUpdateCallback window st = Normal st1 →
            videoUpdateCallback window st1 = Normal st1)
  ∧ (∀ e st', videoUpdateCallback window st = Throw e →
              videoUpdateCallback window st' = Throw e).
Proof.
  assert (∀ found s, onVideoUpdate found (onVideoUpdate found s)
                     = onVideoUpdate found s) as Hidem.
  { intros found s. rewrite (onVideoUpdate_record found (onVideoUpdate found s)).
    rewrite onVideoUpdate_index, (onVideoUpdate_record found s). f_equal.
    generalize (length found) (videoSelectedIndex s). intros n i.
    destruct (Nat.eqb_spec n 0) as [Hn|Hn]; simpl; [done|].
    destruct (Nat.leb_spec n i) as [Hle|Hlt]; simpl.
    - by destruct (n <=? 0).
    - by destruct (Nat.leb_spec n i); [lia|]. }
  split; [|split].
  - intros found n. induction n as [|n IH]; [done|].
    change (Nat.iter (S (S n)) (onVideoUpdate found) st)
      with (onVideoUpdate found (Nat.iter (S n) (onVideoUpdate found) st)).
    by rewrite IH, Hidem.
  - intros st1. unfold videoUpdateCallback.
    destruct (getAllValidVideoElements window) as [found|e]; [|done].
    intros [= <-]. by rewrite Hidem.
  - intros e st'. unfold videoUpdateCallback.
    by destruct (getAllValidVideoElements window).
Qed.

Example rediscovery_on_quiet_page :
  videoUpdateCallback quietPage initialState
    = Normal {| videoElements := [sampleVideo 1; sampleVideo 7];
                videoSelectedIndex := 0 |}
  ∧ videoUpdateCallback quietPage
      {| videoElements := [sampleVideo 1; sampleVideo 7]; videoSelectedIndex := 0 |}
    = Normal {| videoElements := [sampleVideo 1; sampleVideo 7];
                videoSelectedIndex := 0 |}.
Proof. split; reflexivity. Qed.

(** X3: when a discovery pass returns, the active video, if any, is one of
    the elements just found: a video with a non-empty source in a readable
    document of the frame tree.  None is active exactly when the tree holds no
    such video, and then the key listener passes every event through. *)
Theorem active_video_is_fresh (window : Window) (st st' : AppState) :
  videoUpdateCallback window st = Normal st' →
  (∀ v, video st' = Some v →
     v ∈ videoElements st' ∧ videoIn window v ∧ src v ≠ EmptyString)
  ∧ (video st' = None ↔ ∀ v, videoIn window v → src v = EmptyString)
  ∧ (video st' = None →
     ∀ (World Toast : Type) type (plugins : list (Plugin World Toast))
       toast ev w,
       keyListener type plugins toast st' ev w
       = {| handlerCalls := []; eventCalls := []; worldAfter := w |}).
Proof.
  unfold videoUpdateCallback.
  destruct (getAllValidVideoElements window) as [found|e] eqn:Hret; [|done].
  intros [= <-]. apply getAllValidVideoElements_Normal in Hret as [_ ->].
  assert (∀ v, video (onVideoUpdate (discover window) st) = Some v →
               v ∈ discover window) as Hin.
  { intros v. rewrite onVideoUpdate_video.
    destruct (discover window !! videoSelectedIndex st) as [x|] eqn:Hx.
    - intros [= <-]. by eapply list_elem_of_lookup_2.
    - destruct (discover window) as [|x found]; [done|]. intros [= <-]. left. }
  split; [|split].
  - intros v Hv. apply Hin in Hv. rewrite onVideoUpdate_list.
    split; [done|]. by apply discover_elem.
  - rewrite <- discover_nil, onVideoUpdate_video.
    destruct (discover window !! videoSelectedIndex st) as [x|] eqn:Hx.
    + split; [done|]. intros Hnil. by rewrite Hnil, lookup_nil in Hx.
    + destruct (discover window); split; done.
  - intros Hnone World Toast type plugins toast ev w.
    unfold keyListener, shouldMapKey. rewrite Hnone. simpl.
    by destruct (array_includes _ _), (metaKey ev || altKey ev || ctrlKey ev).
Qed.

Lemma active_video_is_fresh_witness :
  video {| videoElements := [sampleVideo 1; sampleVideo 7];
           videoSelectedIndex := 0 |} = None
  ↔ ∀ v, videoIn quietPage v → src v = EmptyString.
Proof.
  apply (active_video_is_fresh quietPage initialState
           {| videoElements := [sampleVideo 1; sampleVideo 7];
              videoSelectedIndex := 0 |} eq_refl).
Defined.

(** ** Discovery order *)

Lemma discover_preorder (w : Window) :
  discover w = flat_map ownVideos (preorder w).
Proof.
  induction w as [c d pos fs Hfs] using Window_tree_ind.
  change (preorder (mkWindow c d pos fs))
    with (mkWindow c d pos fs :: flat_map preorder fs).
  rewrite discover_unfold. simpl. f_equal.
  induction Hfs as [|f fs Hf Hfs IH]; simpl; [done|].
  by rewrite flat_map_app, Hf, IH.
Qed.

Lemma walk_unfold (w : Window) :
  walk w = w :: (if crossOrigin w then [] else flat_map walk (frames w)).
Proof. by destruct w. Qed.

Lemma preorder_unfold (w : Window) :
  preorder w = w :: flat_map preorder (frames w).
Proof. by destruct w. Qed.

(** Discovery throws exactly when a frame it can get to is cross-origin and
    has child frames. *)
Lemma raises_walk (w : Window) :
  raises w = true ↔ ∃ f, f ∈ walk w ∧ crossOrigin f = true ∧ frames f ≠ [].
Proof.
  induction w as [c d pos fs Hfs] using Window_tree_ind.
  rewrite raises_unfold, walk_unfold. simpl. rewrite Forall_forall in Hfs. split.
  - intros Hr. apply andb_true_iff in Hr as [Hlen Hr].
    destruct c; simpl in Hr.
    + exists (mkWindow true d pos fs). split; [left|]. split; [done|].
      simpl. by destruct fs.
    + apply existsb_exists in Hr as (g & Hg & Hr). apply list_elem_of_In in Hg.
      apply (Hfs g Hg) in Hr as (f & Hf & Hc & Hne).
      exists f. split; [|done]. right.
      apply list_elem_of_In, in_flat_map. exists g. by rewrite <- !list_elem_of_In.
  - intros (f & Hf & Hc & Hne). apply elem_of_cons in Hf as [-> | Hf].
    + simpl in Hc, Hne. subst c. simpl. by destruct fs.
    + destruct c; [by apply elem_of_nil in Hf|]. simpl.
      apply list_elem_of_In, in_flat_map in Hf as (g & Hg & Hf).
      apply list_elem_of_In in Hg, Hf.
      assert (existsb raises fs = true) as ->.
      { apply existsb_exists. exists g. split; [by apply list_elem_of_In|].
        apply (Hfs g Hg). by exists f. }
      destruct fs; [by apply elem_of_nil in Hg | done].
Qed.

(** When discovery returns it has been to every frame of the tree. *)
Lemma walk_preorder (w : Window) :
  raises w = false → walk w = preorder w.
Proof.
  induction w as [c d pos fs Hfs] using Window_tree_ind. intros Hquiet.
  pose proof (raises_children _ Hquiet) as Hkids. simpl in Hkids.
  rewrite walk_unfold, preorder_unfold. simpl. f_equal.
  rewrite raises_unfold in Hquiet. simpl in Hquiet.
  destruct c.
  - destruct fs; [done|]. simpl in Hquiet. done.
  - clear Hquiet. induction Hfs as [|f fs Hf Hfs IH]; simpl; [done|].
    inversion Hkids as [|? ? Hk Hks]; subst. by rewrite Hf, IH.
Qed.

(** X4: discovery is a depth-first, pre-order walk of the frame tree that
    does not survive a cross-origin frame with frames of its own.  It throws,
    always a [SecurityError], exactly when some frame it can get to is
    cross-origin and has child frames.  When it returns it has been to every
    frame of the tree, and the result is the concatenation, over the frames
    in pre-order, of each frame's own videos with a source. *)
Theorem discovery_is_preorder_walk (w : Window) :
  (getAllValidVideoElements w = Throw SecurityError ↔
     ∃ f, f ∈ walk w ∧ crossOrigin f = true ∧ frames f ≠ [])
  ∧ (∀ e, getAllValidVideoElements w = Throw e → e = SecurityError)
  ∧ (∀ found, getAllValidVideoElements w = Normal found →
       walk w = preorder w
       ∧ found = flat_map ownVideos (preorder w)
       ∧ length found = sum_list (map (λ f, length (ownVideos f)) (preorder w))
       ∧ (∀ f, f ∈ preorder w → crossOrigin f = true → frames f = [])
       ∧ ∀ f v, f ∈ preorder w → v ∈ ownVideos f → v ∈ found).
Proof.
  split; [|split].
  - rewrite <- raises_walk, getAllValidVideoElements_spec.
    destruct (raises w); split; done.
  - intros e. rewrite getAllValidVideoElements_spec.
    destruct (raises w); [by intros [= <-] | done].
  - intros found Hret.
    apply getAllValidVideoElements_Normal in Hret as [Hquiet ->].
    pose proof (walk_preorder w Hquiet) as Hwalk.
    split; [done|]. split; [apply discover_preorder|].
    rewrite discover_preorder. split; [|split].
    + clear Hwalk. induction (preorder w) as [|f fs IH]; simpl; [done|].
      by rewrite length_app, IH.
    + intros f Hf Hc. destruct (frames f) as [|g gs] eqn:Hfs; [done|].
      assert (raises w = true); [|congruence].
      apply raises_walk. exists f. rewrite Hwalk, Hfs. done.
    + intros f v Hf Hv. apply list_elem_of_In, in_flat_map.
      exists f. by rewrite <- !list_elem_of_In.
Qed.

(** ** Key router: outcome in closed form *)

Section KeyRouterOutcome.

Context {World Toast : Type}.
Implicit Types (ps qs plugins : list (Plugin World Toast)).
Implicit Types (s : Dispatch World) (ctx : PluginContext Toast).

Lemma forEachPlugin_app type ctx ps1 ps2 i s :
  forEachPlugin type ctx (ps1 ++ ps2) i s
  = forEachPlugin type ctx ps2 (i + length ps1) (forEachPlugin type ctx ps1 i s).
Proof.
  revert i s. induction ps1 as [|p ps1 IH]; intros i s; simpl.
  - by rewrite Nat.add_0_r.
  - rewrite IH. f_equal. lia.
Qed.

(** While every handler declines, the loop calls each one and threads the
    world exactly as [dispatchAll] does. *)
Lemma forEachPlugin_declined type ctx ps i s w1 :
  ret s = false →
  dispatchAll type ctx ps (world s) = (false, w1) →
  forEachPlugin type ctx ps i s
  = {| ret := false; world := w1;
       calls := calls s ++ map (λ j, (j, false)) (seq i (length ps)) |}.
Proof.
  revert i s. induction ps as [|p ps IH]; intros i s Hret Hall; simpl in *.
  - injection Hall as <-. rewrite app_nil_r. destruct s. simpl in *. by subst.
  - unfold dispatchOne. rewrite Hret.
    destruct (fnMap type p ctx (world s)) as [r wa].
    destruct (dispatchAll type ctx ps wa) as [r' wb] eqn:Hrest.
    injection Hall as Hor <-. apply orb_false_iff in Hor as [-> ->].
    rewrite (IH (S i) {| ret := false; world := wa;
                         calls := calls s ++ [(i, false)] |} eq_refl Hrest).
    simpl. by rewrite <- app_assoc.
Qed.

Lemma forEachPlugin_same_handlers type ev toast v ps qs i s :
  Forall2 (λ p q, ∀ w,
    fnMap type p {| ctx_event := ev; ctx_video := Some v; ctx_toast := toast |} w
    = fnMap type q {| ctx_event := ev; ctx_video := Some v; ctx_toast := toast |} w)
    ps qs →
  forEachPlugin type {| ctx_event := ev; ctx_video := Some v; ctx_toast := toast |} ps i s
  = forEachPlugin type {| ctx_event := ev; ctx_video := Some v; ctx_toast := toast |} qs i s.
Proof.
  intros Hsame. revert i s.
  induction Hsame as [|p q ps qs Hpq Hrest IH]; intros i s; simpl; [done|].
  unfold dispatchOne. rewrite Hpq. apply IH.
Qed.

End KeyRouterOutcome.

(** X5: when the plugins registered before [p] all decline a qualifying event
    and [p] claims it, the listener has called exactly those plugins and [p],
    once each and in order, has suppressed the event, and leaves the world as
    [p]'s handler left it: the plugins registered after [p] have had no
    effect. *)
Theorem router_stops_at_first_claimer {World Toast : Type} (type : KeyEventType)
    (ps1 : list (Plugin World Toast)) (p : Plugin World Toast)
    (ps2 : list (Plugin World Toast)) (toast : Toast)
    (st : AppState) (ev : KeyboardEvent) (w w1 w2 : World) :
  shouldMapKey st ev = true →
  dispatchAll type {| ctx_event := ev; ctx_video := video st; ctx_toast := toast |}
    ps1 w = (false, w1) →
  fnMap type p {| ctx_event := ev; ctx_video := video st; ctx_toast := toast |} w1
    = (true, w2) →
  keyListener type (ps1 ++ p :: ps2) toast st ev w
  = {| handlerCalls := map (λ j, (j, false)) (seq 0 (length ps1))
                       ++ [(length ps1, true)];
       eventCalls := [stopImmediatePropagation; preventDefault];
       worldAfter := w2 |}.
Proof.
  intros Hok Hdecl Hclaim. unfold keyListener. rewrite Hok. simpl negb. cbv iota zeta.
  rewrite forEachPlugin_app.
  rewrite (forEachPlugin_declined type _ ps1 0
             {| ret := false; world := w; calls := [] |} w1 eq_refl Hdecl).
  simpl. unfold dispatchOne. simpl. rewrite Hclaim.
  by rewrite forEachPlugin_claimed.
Qed.

Lemma router_stops_at_first_claimer_witness :
  keyListener keydown ([keyPlugin [" "]] ++ keyPlugin ["z"; "x"; "c"]
                         :: [keyPlugin ["x"]]) tt
    {| videoElements := [sampleVideo 0]; videoSelectedIndex := 0 |}
    (keyPress "x" (Some "DIV")) 0
  = {| handlerCalls := [(0, false); (1, true)];
       eventCalls := [stopImmediatePropagation; preventDefault];
       worldAfter := 2 |}.
Proof.
  apply (router_stops_at_first_claimer keydown [keyPlugin [" "]]
           (keyPlugin ["z"; "x"; "c"]) [keyPlugin ["x"]] tt
           {| videoElements := [sampleVideo 0]; videoSelectedIndex := 0 |}
           (keyPress "x" (Some "DIV")) 0 1 2); reflexivity.
Defined.

(** X6: when no plugin claims a qualifying event, the listener has called
    every registered handler once, in registration order, calls nothing on
    the event, and leaves the world that running all the handlers in a row
    gives. *)
Theorem router_runs_all_when_unclaimed {World Toast : Type} (type : KeyEventType)
    (plugins : list (Plugin World Toast)) (toast : Toast)
    (st : AppState) (ev : KeyboardEvent) (w w1 : World) :
  shouldMapKey st ev = true →
  dispatchAll type {| ctx_event := ev; ctx_video := video st; ctx_toast := toast |}
    plugins w = (false, w1) →
  keyListener type plugins toast st ev w
  = {| handlerCalls := map (λ j, (j, false)) (seq 0 (length plugins));
       eventCalls := [];
       worldAfter := w1 |}.
Proof.
  intros Hok Hdecl. unfold keyListener. rewrite Hok. simpl negb. cbv iota zeta.
  by rewrite (forEachPlugin_declined type _ plugins 0
                {| ret := false; world := w; calls := [] |} w1 eq_refl Hdecl).
Qed.

Lemma router_runs_all_when_unclaimed_witness :
  keyListener keydown samplePlugins tt
    {| videoElements := [sampleVideo 0]; videoSelectedIndex := 0 |}
    (keyPress "q" (Some "DIV")) 0
  = {| handlerCalls := [(0, false); (1, false)]; eventCalls := []; worldAfter := 2 |}.
Proof.
  apply (router_runs_all_when_unclaimed keydown samplePlugins tt
           {| videoElements := [sampleVideo 0]; videoSelectedIndex := 0 |}
           (keyPress "q" (Some "DIV")) 0 2); reflexivity.
Defined.

(** X7: what a listener does with an event depends on the plugins only
    through their handlers for the listener's own direction, applied to that
    event with a present video: plugins that agree there give the same calls,
    the same suppression and the same world.  So a key-up never runs a
    key-down handler, and no handler is ever handed an absent video. *)
Theorem router_uses_only_matching_handlers {World Toast : Type}
    (type : KeyEventType) (ps qs : list (Plugin World Toast)) (toast : Toast)
    (st : AppState) (ev : KeyboardEvent) (w : World) :
  Forall2 (λ p q, ∀ v w',
    fnMap type p {| ctx_event := ev; ctx_video := Some v; ctx_toast := toast |} w'
    = fnMap type q {| ctx_event := ev; ctx_video := Some v; ctx_toast := toast |} w')
    ps qs →
  keyListener type ps toast st ev w = keyListener type qs toast st ev w.
Proof.
  intros Hsame. unfold keyListener.
  destruct (shouldMapKey st ev) eqn:Hok; simpl; [|done].
  assert (∃ v, video st = Some v) as [v Hv].
  { unfold shouldMapKey in Hok. destruct (video st) as [v|]; [by exists v|].
    by destruct (array_includes _ _), (metaKey ev || altKey ev || ctrlKey ev). }
  rewrite Hv.
  rewrite (forEachPlugin_same_handlers type ev toast v ps qs); [done|].
  eapply Forall2_impl; [exact Hsame|]. simpl. intros p q Hpq w'. apply Hpq.
Qed.

Lemma router_uses_only_matching_handlers_witness :
  keyListener keyup samplePlugins tt
    {| videoElements := [sampleVideo 0]; videoSelectedIndex := 0 |}
    (keyPress " " (Some "DIV")) 0
  = keyListener keyup [keyPlugin []; keyPlugin []] tt
      {| videoElements := [sampleVideo 0]; videoSelectedIndex := 0 |}
      (keyPress " " (Some "DIV")) 0.
Proof.
  apply (router_uses_only_matching_handlers keyup samplePlugins
           [keyPlugin []; keyPlugin []] tt).
  repeat constructor.
Defined.

(** X8: the eligibility filter lets an event through exactly when its target
    is not an [input] or [textarea] (whatever the letter case of the tag
    name; a target without tag name passes), none of meta, alt and control is
    held, and a video is active.  Which key it is plays no part, and the first
    registered handler is then always called. *)
Theorem filter_passes_exactly (st : AppState) (ev : KeyboardEvent) :
  (shouldMapKey st ev = true ↔
     (∀ t name, target ev = Some t → tagName t = Some name →
        toLowerCase name ≠ "input" ∧ toLowerCase name ≠ "textarea")
     ∧ metaKey ev = false ∧ altKey ev = false ∧ ctrlKey ev = false
     ∧ is_Some (video st))
  ∧ (∀ k, shouldMapKey st
            {| key := k; target := target ev; metaKey := metaKey ev;
               altKey := altKey ev; ctrlKey := ctrlKey ev |}
          = shouldMapKey st ev)
  ∧ (shouldMapKey st ev = true →
     ∀ (World Toast : Type) type (p : Plugin World Toast) rest toast w,
       head (handlerCalls (keyListener type (p :: rest) toast st ev w))
       = Some (0, (fnMap type p
                     {| ctx_event := ev; ctx_video := video st; ctx_toast := toast |}
                     w).1)).
Proof.
  split; [|split].
  - unfold shouldMapKey, targetTagLower.
    destruct (target ev) as [t|]; [destruct (tagName t) as [name|] eqn:Hname|];
      simpl.
    + destruct (String.eqb_spec (toLowerCase name) "input") as [Hi|Hi].
      { split; [done|]. intros [Htag _]. by destruct (Htag t name eq_refl Hname). }
      destruct (String.eqb_spec (toLowerCase name) "textarea") as [Ha|Ha].
      { split; [done|]. intros [Htag _]. by destruct (Htag t name eq_refl Hname). }
      simpl. destruct (metaKey ev), (altKey ev), (ctrlKey ev), (video st);
        simpl; split; try done; try (intros (_ & ? & ? & ? & ?); done);
        try (intros (_ & _ & _ & _ & [? ?]); done).
      intros _. split; [|by eauto].
      intros t' name' [= <-] Hn'. rewrite Hname in Hn'. by simplify_eq.
    + destruct (metaKey ev), (altKey ev), (ctrlKey ev), (video st);
        simpl; split; try done; try (intros (_ & ? & ? & ? & ?); done);
        try (intros (_ & _ & _ & _ & [? ?]); done).
      intros _. split; [|by eauto]. intros t' name' [= <-] Hn'. congruence.
    + destruct (metaKey ev), (altKey ev), (ctrlKey ev), (video st);
        simpl; split; try done; try (intros (_ & ? & ? & ? & ?); done);
        try (intros (_ & _ & _ & _ & [? ?]); done);
        try (intros _; split; [done | by eauto]).
  - done.
  - intros Hok World Toast type p rest toast w.
    destruct (keyListener_calls type (p :: rest) toast st ev w Hok) as [-> _].
    simpl. by destruct (fnMap type p _ w).
Qed.

(** ** Picker: what hovering does to the page *)

Lemma removeFirstElementChild_pageNodes (cs : list Node) (c : Node) :
  firstElementChild cs = Some c → className c = outlineClass →
  filter (λ n, isOutline n = false) (removeFirstElementChild cs)
  = filter (λ n, isOutline n = false) cs.
Proof.
  unfold firstElementChild. intros Hfirst Hcls.
  induction cs as [|x cs IH]; simpl in *; [done|].
  destruct (Nat.eqb_spec (nodeType x) ELEMENT_NODE) as [Hx|Hx].
  - injection Hfirst as ->. rewrite filter_cons_False; [done|].
    unfold isOutline. rewrite Hx, Hcls. simpl. done.
  - assert (isOutline x = false) as Hno.
    { unfold isOutline. by destruct (Nat.eqb_spec (nodeType x) ELEMENT_NODE). }
    rewrite !filter_cons_True by done. f_equal. by apply IH.
Qed.

Lemma pickerStep_pageNodes (st : AppState) (dom dom' : gmap nat (list Node)) :
  pickerStep st dom dom' →
  (∀ q, pageNodes dom' q = pageNodes dom q)
  ∧ (∀ q, (∀ v, v ∈ videoElements st → parentElement v ≠ Some q) →
          childrenOf dom' q = childrenOf dom q).
Proof.
  intros [i d d' Hsel | i d d' Hun].
  - unfold selectVideo in Hsel.
    destruct (videoElements st !! i) as [v|] eqn:Hv; [|done].
    destruct (isOutlineClass (firstSiblingClass d v)); [by simplify_eq|].
    destruct (parentElement v) as [p|] eqn:Hp; [|by simplify_eq].
    injection Hsel as <-. split; intros q.
    + unfold pageNodes. rewrite childrenOf_insert. case_decide; [subst q|done].
      by rewrite filter_cons_False.
    + intros Hfar. rewrite childrenOf_insert. case_decide; [subst q|done].
      destruct (Hfar v); [by eapply list_elem_of_lookup_2 | done].
  - unfold unselectVideo in Hun.
    destruct (videoElements st !! i) as [v|] eqn:Hv; [|done].
    destruct (isOutlineClass (firstSiblingClass d v)) eqn:Hfirst;
      simpl in Hun; [|by simplify_eq].
    destruct (parentElement v) as [p|] eqn:Hp; [|by simplify_eq].
    injection Hun as <-.
    apply isOutlineClass_first in Hfirst as (p' & c & Hp' & Hc & Hcls).
    assert (p' = p) as -> by congruence.
    split; intros q.
    + unfold pageNodes. rewrite childrenOf_insert. case_decide; [subst q|done].
      by apply (removeFirstElementChild_pageNodes _ c).
    + intros Hfar. rewrite childrenOf_insert. case_decide; [subst q|done].
      destruct (Hfar v); [by eapply list_elem_of_lookup_2 | done].
Qed.

(** X9: hovering an entry and leaving it again restores the page.  When no
    outline is in front of the video's siblings, [selectVideo] followed by
    [unselectVideo] returns every element's children as they were, and the
    very same DOM when the video's parent has an entry in the store. *)
Theorem hover_round_trip (st : AppState) (dom : gmap nat (list Node))
    (i : nat) (v : HTMLVideoElement) :
  videoElements st !! i = Some v →
  isOutlineClass (firstSiblingClass dom v) = false →
  ∃ dom1 dom2,
    selectVideo i st dom = Normal dom1
    ∧ unselectVideo i st dom1 = Normal dom2
    ∧ (∀ q, childrenOf dom2 q = childrenOf dom q)
    ∧ ((∀ p, parentElement v = Some p → is_Some (dom !! p)) → dom2 = dom).
Proof.
  intros Hv Hfirst. unfold selectVideo, unselectVideo. rewrite Hv, Hfirst.
  destruct (parentElement v) as [p|] eqn:Hp.
  - exists (<[p := outlineDiv :: childrenOf dom p]> dom),
           (<[p := childrenOf dom p]> dom).
    split; [done|].
    assert (isOutlineClass (firstSiblingClass
              (<[p := outlineDiv :: childrenOf dom p]> dom) v) = true) as ->.
    { apply isOutlineClass_first. exists p, outlineDiv.
      split; [done|]. split; [|done].
      rewrite childrenOf_insert. by case_decide. }
    simpl. split; [|split].
    + rewrite childrenOf_insert. case_decide; [|done]. simpl.
      by rewrite insert_insert_eq.
    + intros q. rewrite childrenOf_insert. by case_decide; [subst|].
    + intros Hin. destruct (Hin p eq_refl) as [cs Hcs].
      apply insert_id. unfold childrenOf. by rewrite Hcs.
  - exists dom, dom. rewrite Hfirst. simpl. done.
Qed.

Lemma hover_round_trip_witness :
  ∃ dom1 dom2,
    selectVideo 0 samplePicker samplePage = Normal dom1
    ∧ unselectVideo 0 samplePicker dom1 = Normal dom2
    ∧ (∀ q, childrenOf dom2 q = childrenOf samplePage q)
    ∧ ((∀ p, parentElement (sampleVideo 0) = Some p → is_Some (samplePage !! p)) →
       dom2 = samplePage).
Proof.
  apply (hover_round_trip samplePicker samplePage 0 (sampleVideo 0) eq_refl).
  unfold firstSiblingClass, childrenOf, samplePage. simpl.
  by rewrite lookup_singleton_eq.
Defined.

(** X10: the picker's two handlers only ever add and remove outlines.
    Whatever DOM they start from and however often they run, the nodes of
    every element that are not outlines stay the same, in the same order, and
    the children of an element that is not the parent of a listed video are
    not touched at all. *)
Theorem picker_preserves_page_nodes (st : AppState)
    (dom0 dom : gmap nat (list Node)) :
  pickerReach st dom0 dom →
  (∀ q, pageNodes dom q = pageNodes dom0 q)
  ∧ (∀ q, (∀ v, v ∈ videoElements st → parentElement v ≠ Some q) →
          childrenOf dom q = childrenOf dom0 q).
Proof.
  induction 1 as [|dom dom' Hreach [IH1 IH2] Hstep]; [done|].
  destruct (pickerStep_pageNodes st dom dom' Hstep) as [H1 H2]. split.
  - intros q. by rewrite H1.
  - intros q Hfar. by rewrite H2, IH2.
Qed.

Lemma picker_preserves_page_nodes_witness :
  pageNodes {[ 0 := [outlineDiv; textNode; videoNode] ]} 0 = pageNodes samplePage 0.
Proof.
  apply (picker_preserves_page_nodes samplePicker samplePage
           {[ 0 := [outlineDiv; textNode; videoNode] ]}).
  apply (pickerReach_step samplePicker samplePage samplePage);
    [apply pickerReach_start|].
  apply (picker_enter samplePicker 0).
  unfold selectVideo, samplePicker, samplePage, firstSiblingClass, childrenOf.
  simpl. rewrite lookup_singleton_eq. simpl. by rewrite insert_singleton_eq.
Defined.

(** ** Picker: the rendered entries *)

Lemma pickerEntries_seq (st : AppState) :
  pickerEntries st = seq 1 (length (videoElements st)).
Proof.
  unfold pickerEntries, pickerRendered.
  by destruct (length (videoElements st)).
Qed.

Lemma count_checked (n k : nat) :
  length (filter (λ index, (entryValue index =? k) = true) (seq 1 n))
  = if k <? n then 1 else 0.
Proof.
  unfold entryValue. induction n as [|n IH]; [done|].
  rewrite seq_S, filter_app, length_app, IH.
  replace (1 + n - 1) with n by lia.
  destruct (Nat.eqb_spec n k) as [->|Hne].
  - rewrite filter_cons_True by (simpl; rewrite Nat.sub_0_r; apply Nat.eqb_refl).
    rewrite Nat.ltb_irrefl. simpl.
    by replace (k <? S k) with true by (symmetry; apply Nat.ltb_lt; lia).
  - rewrite filter_cons_False.
    2:{ simpl. rewrite Nat.sub_0_r. intros Heq. apply Nat.eqb_eq in Heq. done. }
    simpl. destruct (Nat.ltb_spec k n), (Nat.ltb_spec k (S n)); lia.
Qed.

(** X11: the picker shows one entry per video and nothing when there is no
    video; the values of its radio inputs are the list positions
    [0 .. length - 1], each once.  Choosing an entry is a selection of an
    existing video, which becomes the active one, and neither hover handler
    of a rendered entry throws. *)
Theorem picker_offers_each_video_once (st : AppState) :
  length (pickerEntries st) = length (videoElements st)
  ∧ map entryValue (pickerEntries st) = seq 0 (length (videoElements st))
  ∧ (pickerRendered st = false ↔ videoElements st = [])
  ∧ ∀ index, index ∈ pickerEntries st →
      step st (pickVideo (entryValue index) st)
      ∧ is_Some (video (pickVideo (entryValue index) st))
      ∧ video (pickVideo (entryValue index) st)
        = videoElements st !! entryValue index
      ∧ ∀ dom, (∃ d, selectVideo (entryValue index) st dom = Normal d)
               ∧ (∃ d, unselectVideo (entryValue index) st dom = Normal d).
Proof.
  rewrite pickerEntries_seq. split; [apply length_seq|]. split; [|split].
  - generalize (length (videoElements st)) 0. intros n.
    induction n as [|n IH]; intros a; simpl; [done|].
    rewrite IH. unfold entryValue. f_equal. lia.
  - unfold pickerRendered. destruct (videoElements st); simpl; split; done.
  - intros index Hin. apply elem_of_seq in Hin.
    assert (entryValue index < length (videoElements st)) as Hlt
      by (unfold entryValue; lia).
    destruct (lookup_lt_is_Some_2 _ _ Hlt) as [v Hv].
    split; [by apply step_pick|]. unfold video, pickVideo. simpl.
    split; [by exists v|]. split; [done|].
    intros dom. unfold selectVideo, unselectVideo. rewrite Hv.
    destruct (isOutlineClass _), (parentElement v); simpl; eauto.
Qed.

(** X12: in every state the page reaches, exactly one rendered radio input
    is checked when the picker is shown, and it is the entry of the active
    video. *)
Theorem one_entry_checked (st : AppState) :
  reachable st →
  length (filter (λ index, entryChecked st index = true) (pickerEntries st))
    = (if pickerRendered st then 1 else 0)
  ∧ ∀ index, index ∈ pickerEntries st → entryChecked st index = true →
      videoElements st !! entryValue index = video st
      ∧ is_Some (video st).
Proof.
  intros Hreach. rewrite pickerEntries_seq. split.
  - unfold entryChecked. rewrite count_checked. unfold pickerRendered.
    destruct (videoElements st) as [|v l] eqn:Hl; [done|].
    assert (videoSelectedIndex st < length (videoElements st)) as Hlt.
    { apply (reachable_index_in_range st Hreach). by rewrite Hl. }
    rewrite Hl in Hlt. simpl negb. cbv iota.
    by destruct (Nat.ltb_spec (videoSelectedIndex st) (length (v :: l))); [|lia].
  - intros index Hin Hchecked. unfold entryChecked in Hchecked.
    apply Nat.eqb_eq in Hchecked. unfold video. rewrite <- Hchecked.
    split; [done|]. apply lookup_lt_is_Some. apply elem_of_seq in Hin.
    unfold entryValue. lia.
Qed.

Lemma one_entry_checked_witness :
  length (filter (λ index,
            entryChecked {| videoElements := [sampleVideo 0; sampleVideo 1];
                            videoSelectedIndex := 1 |} index = true)
            (pickerEntries {| videoElements := [sampleVideo 0; sampleVideo 1];
                              videoSelectedIndex := 1 |}))
  = 1.
Proof.
  apply (one_entry_checked
           {| videoElements := [sampleVideo 0; sampleVideo 1]; videoSelectedIndex := 1 |}).
  apply (reachable_step (onVideoUpdate [sampleVideo 0; sampleVideo 1] initialState)).
  - apply (reachable_step initialState); [apply reachable_init | apply step_discovery].
  - apply (step_pick 1). simpl. lia.
Defined.

(** ** Mutation watcher: an added frame *)

(** X13: an [iframe] element does not count as plausible for being a frame:
    the search for [iframe] looks strictly below the node.  Such a node
    satisfies the predicate only when its class name mentions [video] or
    another [iframe] lies below it; adding or removing a bare [iframe] with
    an unrelated class schedules nothing. *)
Theorem iframe_itself_is_not_searched (node : Node) :
  isIframe node = true →
  (mayContainsVideoElement node = true ↔
     mentionsVideo (className node)
     ∨ ∃ d, descendant node d ∧ isIframe d = true)
  ∧ (childNodes node = [] → ¬ mentionsVideo (className node) →
     mayContainsVideoElement node = false
     ∧ observerCallback [{| addedNodes := [node]; removedNodes := [node] |}] = []).
Proof.
  intros Hframe. unfold isIframe in Hframe.
  apply andb_true_iff in Hframe as [Ht Hname].
  apply Nat.eqb_eq in Ht. apply String.eqb_eq in Hname.
  assert (nodeName node ≠ "VIDEO") as Hnot.
  { intros Hv. rewrite Hv in Hname. discriminate. }
  assert (mayContainsVideoElement node = true ↔
            mentionsVideo (className node)
            ∨ ∃ d, descendant node d ∧ isIframe d = true) as Hiff.
  { rewrite mayContainsVideoElement_true. split.
    - intros [_ [Hv | Hrest]]; done.
    - intros Hrest. split; [done | by right]. }
  split; [exact Hiff|]. intros Hleaf Hcls.
  assert (mayContainsVideoElement node = false) as Hno.
  { apply not_true_is_false. rewrite Hiff. intros [Hm | (d & Hd & _)]; [done|].
    inversion Hd as [n c Hc | n c e Hc _]; subst; rewrite Hleaf in Hc;
      by apply elem_of_nil in Hc. }
  split; [exact Hno|]. unfold observerCallback. simpl. by rewrite Hno.
Qed.

Lemma iframe_itself_is_not_searched_witness :
  mayContainsVideoElement iframeNode = false
  ∧ observerCallback [{| addedNodes := [iframeNode]; removedNodes := [iframeNode] |}]
    = [].
Proof.
  apply (iframe_itself_is_not_searched iframeNode eq_refl); [reflexivity|].
  rewrite <- regex_video_i_test_spec. discriminate.
Defined.
